(** * MLServer: codec registry and parallel dispatcher

  A shallow embedding of [mlserver/codecs/base.py] and
  [mlserver/parallel/dispatcher.py], with the properties of the
  dispatch / correlation / worker-selection subsystem stated over it. *)

From stdpp Require Import gmap strings list fin_maps pretty.

(** ** Python exceptions and results *)

(** The exceptions the modelled code can raise or carry.  All of them are
  instances of Python's [Exception]; [asyncio.CancelledError] is kept
  apart (see [outcome] below), as the code does in its [except] clauses.
  [FalsyError] stands for an instance of an exception class that defines
  [__bool__] or [__len__] so that the object tests false; every other
  exception object tests true. *)
Inductive exn :=
| KeyError (key : string)
| StopIteration
| InvalidStateError
| ValueError (msg : string)
| RuntimeError (msg : string)
| TypeError (msg : string)
| OtherError (descr : string)
| FalsyError (descr : string).

Global Instance exn_eq_dec : EqDecision exn.
Proof. solve_decision. Defined.

(** The truth value of an exception object, as [if e:] tests it. *)
Definition truthy (e : exn) : bool :=
  match e with
  | FalsyError _ => false
  | _ => true
  end.

(** A computation either returns a value or raises. *)
Inductive result (A : Type) :=
| Ok (a : A)
| Raise (e : exn).
Arguments Ok {A} a.
Arguments Raise {A} e.

(** ** [mlserver/codecs/base.py] *)

Module Codecs.

(** Python dictionaries are mutable objects: a registry holds references
    to them.  The store maps a reference to the dictionary's contents. *)
Definition loc := nat.
(** A codec instance ([CodecKlass()]), identified as an object. *)
Definition codec := nat.

Abbreviation dict := (gmap string codec).
Abbreviation store := (gmap loc dict).

(** State-and-exception monad of the registry's methods. *)
Definition M (A : Type) : Type := store → result A * store.

Definition ret {A} (a : A) : M A := λ s, (Ok a, s).
Definition bind {A B} (m : M A) (k : A → M B) : M B :=
  λ s, match m s with
       | (Ok a, s') => k a s'
       | (Raise e, s') => (Raise e, s')
       end.

(** [d[key]]: a missing key raises [KeyError]. *)
Definition getitem (l : loc) (key : string) : M codec :=
  λ s, match (s !!! l : dict) !! key with
       | Some c => (Ok c, s)
       | None => (Raise (KeyError key), s)
       end.

(** [d[key] = c]: inserts, or overwrites the earlier value. *)
Definition setitem (l : loc) (key : string) (c : codec) : M unit :=
  λ s, (Ok (), <[l := <[key := c]> (s !!! l : dict)]> s).

(** [{}] evaluated at run time: a fresh dictionary. *)
Definition new_dict : M loc :=
  λ s, let l := fresh (dom s) in (Ok l, <[l := ∅]> s).

Record _CodecRegistry := {
  _input_codecs : loc;
  _request_codecs : loc
}.

(** The two default arguments [{}] of [__init__] are evaluated once, when
    the [def] statement is executed. *)
Definition default_input_codecs : loc := 0.
Definition default_request_codecs : loc := 1.

(** The store once the class body has been executed. *)
Definition class_store : store :=
  <[default_request_codecs := ∅]> (<[default_input_codecs := ∅]> ∅).

(** [_CodecRegistry(input_codecs=..., request_codecs=...)]; [None] stands
    for an argument left out. *)
Definition __init__ (input_codecs request_codecs : option loc)
  : _CodecRegistry :=
  {| _input_codecs := default default_input_codecs input_codecs;
     _request_codecs := default default_request_codecs request_codecs |}.

Definition register_input_codec (self : _CodecRegistry)
    (content_type : string) (c : codec) : M unit :=
  setitem (_input_codecs self) content_type c.

Definition find_input_codec (self : _CodecRegistry)
    (content_type : string) : M codec :=
  getitem (_input_codecs self) content_type.

Definition register_request_codec (self : _CodecRegistry)
    (content_type : string) (c : codec) : M unit :=
  setitem (_request_codecs self) content_type c.

Definition find_request_codec (self : _CodecRegistry)
    (content_type : string) : M codec :=
  getitem (_request_codecs self) content_type.

(** The module-level singleton, [_codec_registry = _CodecRegistry()]. *)
Definition _codec_registry : _CodecRegistry := __init__ None None.

(** A registration made through either decorator of the module. *)
Inductive registration :=
  | RegInput (content_type : string) (c : codec)
  | RegRequest (content_type : string) (c : codec).

Definition register (self : _CodecRegistry) (r : registration) : M unit :=
  match r with
  | RegInput ct c => register_input_codec self ct c
  | RegRequest ct c => register_request_codec self ct c
  end.

(** Registrations run in order; none of them can raise. *)
Fixpoint register_all (self : _CodecRegistry) (rs : list registration)
  : M unit :=
  match rs with
  | [] => ret ()
  | r :: rs' => bind (register self r) (λ _, register_all self rs')
  end.

(** The codec of the latest input (resp. request) registration of a
    content type in a history of registrations, oldest first. *)
Fixpoint last_input (ct : string) (rs : list registration) : option codec :=
  match rs with
  | [] => None
  | r :: rs' =>
      match last_input ct rs' with
      | Some c => Some c
      | None =>
          match r with
          | RegInput ct' c => if decide (ct' = ct) then Some c else None
          | RegRequest _ _ => None
          end
      end
  end.

Fixpoint last_request (ct : string) (rs : list registration) : option codec :=
  match rs with
  | [] => None
  | r :: rs' =>
      match last_request ct rs' with
      | Some c => Some c
      | None =>
          match r with
          | RegRequest ct' c => if decide (ct' = ct) then Some c else None
          | RegInput _ _ => None
          end
      end
  end.

Definition lookup_result (ct : string) (o : option codec) : result codec :=
  match o with
  | Some c => Ok c
  | None => Raise (KeyError ct)
  end.

End Codecs.

(** ** [mlserver/parallel/dispatcher.py] *)

Module Dispatcher.

(** *** Messages, workers and the response channel *)

(** Modelled from the spec: the message types ([messages.py]) are
    missing; per §3 a request carries a correlation id and a payload, a
    response a correlation id and either a success payload or an error.
    The dispatcher reads the field [id] of both, spelled [req_id] and
    [resp_id] here, and the field [exception] of a response. *)
Record ModelRequestMessage := {
  req_id : string;
  req_payload : string
}.

Record ModelResponseMessage := {
  resp_id : string;
  return_value : string;
  exception : option exn
}.

Global Instance request_eq_dec : EqDecision ModelRequestMessage.
Proof. solve_decision. Defined.
Global Instance response_eq_dec : EqDecision ModelResponseMessage.
Proof. solve_decision. Defined.

(** What one read of the shared response channel yields: a response,
    the sentinel [END_OF_QUEUE] ([utils.py], a value no response equals),
    or a read that raises (a message that cannot be unpickled, a broken
    pipe). *)
Inductive item :=
  | Response (r : ModelResponseMessage)
  | END_OF_QUEUE
  | ReadFault (e : exn).

(** [multiprocessing.Queue], as far as the dispatcher uses it. *)
Record Queue := {
  items : list item;
  closed : bool
}.

Definition queue_closed_error : exn := ValueError "Queue is closed".

(** [Queue.put]: refused once the queue has been closed. *)
Definition put (q : Queue) (x : item) : result Queue :=
  if closed q then Raise queue_closed_error
  else Ok {| items := items q ++ [x]; closed := closed q |}.

(** [Queue.close]. *)
Definition close (q : Queue) : Queue :=
  {| items := items q; closed := true |}.

(** Modelled from the spec: [Worker] ([worker.py]) is missing; per §4.1
    it owns an inbound request channel, [send] appends to it without
    blocking and the depth of the channel can be observed. *)
Record Worker := {
  _requests : list ModelRequestMessage
}.

Definition send_request (w : Worker) (m : ModelRequestMessage) : Worker :=
  {| _requests := _requests w ++ [m] |}.

Definition qsize (w : Worker) : nat := length (_requests w).

(** [Dict[int, Worker]]: a Python dictionary keeps its keys in insertion
    order, which is the order [keys()] iterates in. *)
Definition workers := list (Z * Worker).

Definition keys (ws : workers) : list Z := ws.*1.

Fixpoint workers_get (ws : workers) (pid : Z) : option Worker :=
  match ws with
  | [] => None
  | (k, w) :: ws' => if decide (k = pid) then Some w else workers_get ws' pid
  end.

(** The worker object under [pid] is mutated in place. *)
Fixpoint workers_update (ws : workers) (pid : Z) (f : Worker → Worker)
  : workers :=
  match ws with
  | [] => []
  | (k, w) :: ws' =>
      if decide (k = pid) then (k, f w) :: ws'
      else (k, w) :: workers_update ws' pid f
  end.

(** *** [itertools.cycle] *)

(** The iterator state of CPython's [cycle]: the source iterator while
    it lasts ([it]), the elements saved from it, and the read position in
    [saved] once the source is exhausted. *)
Record cycle := {
  it : option (list Z);
  saved : list Z;
  index : nat
}.

Definition cycle_new (iterable : list Z) : cycle :=
  {| it := Some iterable; saved := []; index := 0 |}.

(** [next(c)]: [None] stands for [StopIteration]. *)
Definition cycle_next (c : cycle) : option (Z * cycle) :=
  match it c with
  | Some (x :: rest) =>
      Some (x, {| it := Some rest; saved := saved c ++ [x]; index := index c |})
  | _ =>
      match saved c !! index c with
      | None => None
      | Some x =>
          let i := S (index c) in
          Some (x, {| it := None; saved := saved c;
                      index := if decide (length (saved c) ≤ i) then 0 else i |})
      end
  end.

(** *** Futures, callbacks and suspended callers *)

(** A reference to an [asyncio.Future]: its position in the store. *)
Abbreviation fut := nat.

Inductive fstate :=
  | FPending
  | FResult (r : ModelResponseMessage)
  | FException (e : exn)
  | FCancelled.

Global Instance fstate_eq_dec : EqDecision fstate.
Proof. solve_decision. Defined.

(** A callback handed to [call_soon_threadsafe]. *)
Inductive callback :=
  | set_result (f : fut) (r : ModelResponseMessage)
  | set_exception (f : fut) (e : exn).

(** How a coroutine ends. *)
Inductive outcome (A : Type) :=
  | Returned (a : A)
  | Raised (e : exn)
  | Cancelled.
Arguments Returned {A} a.
Arguments Raised {A} e.
Arguments Cancelled {A}.

Global Instance outcome_eq_dec {A} `{EqDecision A} : EqDecision (outcome A).
Proof. solve_decision. Defined.

(** A [dispatch] call: suspended in [_wait_response] at
    [await async_response], or finished.  [must_cancel] is the flag a
    task carries when it was cancelled while its future was already
    resolved. *)
Inductive call :=
  | Waiting (internal_id : string) (async_response : fut) (must_cancel : bool)
  | Done (o : outcome ModelResponseMessage).

Global Instance call_eq_dec : EqDecision call.
Proof. solve_decision. Defined.

(** The task running [_process_responses]. *)
Inductive task :=
  | Running
  | Finished (o : outcome unit).

Global Instance task_eq_dec : EqDecision task.
Proof. solve_decision. Defined.

(** Observable effects, in the order they happen. *)
Inductive effect :=
  | ObserveQueue (worker_pid : Z) (queue_size : nat)
  | Send (worker_pid : Z) (m : ModelRequestMessage)
  | ObserveTasks
  | Register (internal_id : string) (f : fut)
  | Unregister (internal_id : string)
  | LogCrash (e : exn)
  | CallbackError (e : exn).

Global Instance effect_eq_dec : EqDecision effect.
Proof. solve_decision. Defined.

(** *** The dispatcher and its event loop *)

Record state := {
  _responses : Queue;
  _workers : workers;
  _workers_round_robin : cycle;
  _active : bool;
  (** the task [start] scheduled last, as a position in [tasks] *)
  _process_responses_task : option nat;
  (** [true] once [_executor.shutdown()] has run *)
  _executor_shutdown : bool;
  _async_responses : gmap string fut;
  (** the tasks running [_process_responses] created so far *)
  tasks : list task;
  (** the futures created so far *)
  futures : list fstate;
  (** callbacks scheduled on the event loop, oldest first *)
  ready : list callback;
  (** the [dispatch] calls made so far, in call order *)
  calls : list call;
  trace : list effect
}.

Definition set_responses (q : Queue) (σ : state) : state :=
  {| _responses := q; _workers := _workers σ;
     _workers_round_robin := _workers_round_robin σ; _active := _active σ;
     _process_responses_task := _process_responses_task σ;
     _executor_shutdown := _executor_shutdown σ;
     _async_responses := _async_responses σ; tasks := tasks σ;
     futures := futures σ; ready := ready σ; calls := calls σ;
     trace := trace σ |}.

Definition set_workers (ws : workers) (σ : state) : state :=
  {| _responses := _responses σ; _workers := ws;
     _workers_round_robin := _workers_round_robin σ; _active := _active σ;
     _process_responses_task := _process_responses_task σ;
     _executor_shutdown := _executor_shutdown σ;
     _async_responses := _async_responses σ; tasks := tasks σ;
     futures := futures σ; ready := ready σ; calls := calls σ;
     trace := trace σ |}.

Definition set_round_robin (c : cycle) (σ : state) : state :=
  {| _responses := _responses σ; _workers := _workers σ;
     _workers_round_robin := c; _active := _active σ;
     _process_responses_task := _process_responses_task σ;
     _executor_shutdown := _executor_shutdown σ;
     _async_responses := _async_responses σ; tasks := tasks σ;
     futures := futures σ; ready := ready σ; calls := calls σ;
     trace := trace σ |}.

Definition set_active (b : bool) (σ : state) : state :=
  {| _responses := _responses σ; _workers := _workers σ;
     _workers_round_robin := _workers_round_robin σ; _active := b;
     _process_responses_task := _process_responses_task σ;
     _executor_shutdown := _executor_shutdown σ;
     _async_responses := _async_responses σ; tasks := tasks σ;
     futures := futures σ; ready := ready σ; calls := calls σ;
     trace := trace σ |}.

Definition set_task (t : option nat) (σ : state) : state :=
  {| _responses := _responses σ; _workers := _workers σ;
     _workers_round_robin := _workers_round_robin σ; _active := _active σ;
     _process_responses_task := t;
     _executor_shutdown := _executor_shutdown σ;
     _async_responses := _async_responses σ; tasks := tasks σ;
     futures := futures σ; ready := ready σ; calls := calls σ;
     trace := trace σ |}.

Definition set_executor_shutdown (b : bool) (σ : state) : state :=
  {| _responses := _responses σ; _workers := _workers σ;
     _workers_round_robin := _workers_round_robin σ; _active := _active σ;
     _process_responses_task := _process_responses_task σ;
     _executor_shutdown := b; _async_responses := _async_responses σ;
     tasks := tasks σ; futures := futures σ; ready := ready σ;
     calls := calls σ; trace := trace σ |}.

Definition set_async_responses (m : gmap string fut) (σ : state) : state :=
  {| _responses := _responses σ; _workers := _workers σ;
     _workers_round_robin := _workers_round_robin σ; _active := _active σ;
     _process_responses_task := _process_responses_task σ;
     _executor_shutdown := _executor_shutdown σ; _async_responses := m;
     tasks := tasks σ; futures := futures σ; ready := ready σ;
     calls := calls σ; trace := trace σ |}.

Definition set_tasks (ts : list task) (σ : state) : state :=
  {| _responses := _responses σ; _workers := _workers σ;
     _workers_round_robin := _workers_round_robin σ; _active := _active σ;
     _process_responses_task := _process_responses_task σ;
     _executor_shutdown := _executor_shutdown σ;
     _async_responses := _async_responses σ; tasks := ts;
     futures := futures σ; ready := ready σ; calls := calls σ;
     trace := trace σ |}.

Definition set_futures (fs : list fstate) (σ : state) : state :=
  {| _responses := _responses σ; _workers := _workers σ;
     _workers_round_robin := _workers_round_robin σ; _active := _active σ;
     _process_responses_task := _process_responses_task σ;
     _executor_shutdown := _executor_shutdown σ;
     _async_responses := _async_responses σ; tasks := tasks σ;
     futures := fs; ready := ready σ; calls := calls σ;
     trace := trace σ |}.

Definition set_ready (cbs : list callback) (σ : state) : state :=
  {| _responses := _responses σ; _workers := _workers σ;
     _workers_round_robin := _workers_round_robin σ; _active := _active σ;
     _process_responses_task := _process_responses_task σ;
     _executor_shutdown := _executor_shutdown σ;
     _async_responses := _async_responses σ; tasks := tasks σ;
     futures := futures σ; ready := cbs; calls := calls σ;
     trace := trace σ |}.

Definition set_calls (cs : list call) (σ : state) : state :=
  {| _responses := _responses σ; _workers := _workers σ;
     _workers_round_robin := _workers_round_robin σ; _active := _active σ;
     _process_responses_task := _process_responses_task σ;
     _executor_shutdown := _executor_shutdown σ;
     _async_responses := _async_responses σ; tasks := tasks σ;
     futures := futures σ; ready := ready σ; calls := cs;
     trace := trace σ |}.

(** Appends an effect to the trace. *)
Definition emit (e : effect) (σ : state) : state :=
  {| _responses := _responses σ; _workers := _workers σ;
     _workers_round_robin := _workers_round_robin σ; _active := _active σ;
     _process_responses_task := _process_responses_task σ;
     _executor_shutdown := _executor_shutdown σ;
     _async_responses := _async_responses σ; tasks := tasks σ;
     futures := futures σ; ready := ready σ; calls := calls σ;
     trace := trace σ ++ [e] |}.

(** [Dispatcher.__init__(workers, responses)]. *)
Definition __init__ (ws : workers) (responses : Queue) : state :=
  {| _responses := responses; _workers := ws;
     _workers_round_robin := cycle_new (keys ws); _active := false;
     _process_responses_task := None; _executor_shutdown := false;
     _async_responses := ∅; tasks := []; futures := []; ready := [];
     calls := [];
     trace := [] |}.

(** *** Worker selection and [dispatch] *)

(** [_get_worker]: the next key of the round robin and its worker. *)
Definition _get_worker (σ : state) : result (Worker * Z) * state :=
  match cycle_next (_workers_round_robin σ) with
  | None => (Raise StopIteration, σ)
  | Some (worker_pid, c) =>
      let σ' := set_round_robin c σ in
      match workers_get (_workers σ') worker_pid with
      | Some w => (Ok (w, worker_pid), σ')
      | None => (Raise (KeyError (pretty worker_pid)), σ')
      end
  end.

(** [_workers_queue_monitor]: one observation of the worker's depth. *)
Definition _workers_queue_monitor (worker : Worker) (worker_pid : Z)
    (σ : state) : state :=
  emit (ObserveQueue worker_pid (qsize worker)) σ.

(** [_workers_processes_monitor]: one observation of the loop's tasks. *)
Definition _workers_processes_monitor (σ : state) : state :=
  emit ObserveTasks σ.

(** [dispatch], lines 91 to 93: select a worker, observe its queue, send
    the request. *)
Definition dispatch_submit (request_message : ModelRequestMessage)
    (σ : state) : result unit * state :=
  match _get_worker σ with
  | (Raise e, σ1) => (Raise e, σ1)
  | (Ok (worker, wpid), σ1) =>
      let σ2 := _workers_queue_monitor worker wpid σ1 in
      let ws := workers_update (_workers σ2) wpid
                  (λ w, send_request w request_message) in
      (Ok (), emit (Send wpid request_message) (set_workers ws σ2))
  end.

(** [dispatch], lines 94 to 98: create the future and register it under
    the request's id. *)
Definition dispatch_register (request_message : ModelRequestMessage)
    (σ : state) : state :=
  let σ1 := _workers_processes_monitor σ in
  let async_response := length (futures σ1) in
  let σ2 := set_futures (futures σ1 ++ [FPending]) σ1 in
  let internal_id := req_id request_message in
  emit (Register internal_id async_response)
    (set_async_responses
       (<[internal_id := async_response]> (_async_responses σ2)) σ2).

(** [_wait_response] up to its [await]: the future is read back from the
    table and the caller suspends on it. *)
Definition _wait_response_enter (internal_id : string) (σ : state)
  : result call :=
  match _async_responses σ !! internal_id with
  | None => Raise (KeyError internal_id)
  | Some async_response => Ok (Waiting internal_id async_response false)
  end.

(** An exception leaving a coroutine; [StopIteration] is turned into a
    [RuntimeError] (PEP 479). *)
Definition coroutine_raised (e : exn) : exn :=
  match e with
  | StopIteration => RuntimeError "coroutine raised StopIteration"
  | _ => e
  end.

Definition add_call (c : call) (σ : state) : state :=
  set_calls (calls σ ++ [c]) σ.

(** [dispatch], run to its suspension point.  Nothing in it awaits
    before [await async_response], so the event loop runs it in one go. *)
Definition dispatch (request_message : ModelRequestMessage) (σ : state)
  : state :=
  match dispatch_submit request_message σ with
  | (Raise e, σ1) => add_call (Done (Raised (coroutine_raised e))) σ1
  | (Ok _, σ1) =>
      let σ2 := dispatch_register request_message σ1 in
      match _wait_response_enter (req_id request_message) σ2 with
      | Raise e => add_call (Done (Raised e)) σ2
      | Ok c => add_call c σ2
      end
  end.

(** *** Resolving and resuming *)

Definition call_soon_threadsafe (cb : callback) (σ : state) : state :=
  set_ready (ready σ ++ [cb]) σ.

(** [if response.exception:], line 81: the error the response carries, if
    the field holds one that tests true.  [None] tests false, and so does
    an exception object that is falsy. *)
Definition carried_error (response : ModelResponseMessage) : option exn :=
  match exception response with
  | Some e => if truthy e then Some e else None
  | None => None
  end.

(** [_process_response]. *)
Definition _process_response (response : ModelResponseMessage) (σ : state)
  : result unit * state :=
  let internal_id := resp_id response in
  match _async_responses σ !! internal_id with
  | None => (Raise (KeyError internal_id), σ)
  | Some async_response =>
      match carried_error response with
      | Some e =>
          (Ok (), call_soon_threadsafe (set_exception async_response e) σ)
      | None =>
          (Ok (), call_soon_threadsafe (set_result async_response response) σ)
      end
  end.

Definition stop_iteration_refused : exn :=
  TypeError "StopIteration interacts badly with generators and cannot be raised into a Future".

(** [Future.set_result] / [Future.set_exception]: only a pending future
    takes a value; on any other the call raises [InvalidStateError].  A
    pending future does not take a [StopIteration] either:
    [set_exception] raises [TypeError] and the future stays pending (so
    asyncio up to Python 3.12; later versions store a [RuntimeError] in
    its place, and the waiting caller does not get the [StopIteration]
    either).  What a callback raises is reported by the event loop's
    exception handler and goes no further. *)
Definition resolve (f : fut) (v : fstate) (σ : state) : state :=
  match futures σ !! f with
  | Some FPending =>
      match v with
      | FException StopIteration =>
          emit (CallbackError stop_iteration_refused) σ
      | _ => set_futures (<[f := v]> (futures σ)) σ
      end
  | _ => emit (CallbackError InvalidStateError) σ
  end.

(** The event loop runs the oldest scheduled callback. *)
Definition run_callback (σ : state) : state :=
  match ready σ with
  | [] => σ
  | cb :: cbs =>
      let σ' := set_ready cbs σ in
      match cb with
      | set_result f r => resolve f (FResult r) σ'
      | set_exception f e => resolve f (FException e) σ'
      end
  end.

(** [del self._async_responses[internal_id]]. *)
Definition delitem (internal_id : string) (σ : state)
  : result unit * state :=
  match _async_responses σ !! internal_id with
  | None => (Raise (KeyError internal_id), σ)
  | Some _ =>
      (Ok (), emit (Unregister internal_id)
                (set_async_responses
                   (delete internal_id (_async_responses σ)) σ))
  end.

(** What [await async_response] leaves the caller with when it is
    resumed; [None] while there is nothing to resume for.  An exception
    the [await] raises is not caught in [_wait_response] or [dispatch]: it
    leaves both coroutines, as [coroutine_raised] has it. *)
Definition awaited (must_cancel : bool) (s : fstate)
  : option (outcome ModelResponseMessage) :=
  if must_cancel then Some Cancelled
  else match s with
       | FPending => None
       | FResult r => Some (Returned r)
       | FException e => Some (Raised (coroutine_raised e))
       | FCancelled => Some Cancelled
       end.

(** [_wait_response] from its [await] on: the [finally] clause runs
    whatever the [await] yields, and an exception of its own replaces the
    pending outcome.  (The [return] after the [try] statement is never
    reached.) *)
Definition _wait_response_resume (internal_id : string)
    (o : outcome ModelResponseMessage) (σ : state)
  : outcome ModelResponseMessage * state :=
  match delitem internal_id σ with
  | (Ok _, σ') => (o, σ')
  | (Raise e, σ') => (Raised e, σ')
  end.

(** The event loop resumes call [k], if its await can be completed. *)
Definition wake (k : nat) (σ : state) : state :=
  match calls σ !! k with
  | Some (Waiting internal_id f must_cancel) =>
      match futures σ !! f ≫= awaited must_cancel with
      | None => σ
      | Some o =>
          let '(o', σ') := _wait_response_resume internal_id o σ in
          set_calls (<[k := Done o']> (calls σ')) σ'
      end
  | _ => σ
  end.

(** [Task.cancel] on the task running call [k]: the awaited future is
    cancelled when it is still pending, otherwise the task is flagged. *)
Definition cancel (k : nat) (σ : state) : state :=
  match calls σ !! k with
  | Some (Waiting internal_id f _) =>
      match futures σ !! f with
      | Some FPending => set_futures (<[f := FCancelled]> (futures σ)) σ
      | _ => set_calls (<[k := Waiting internal_id f true]> (calls σ)) σ
      end
  | _ => σ
  end.

(** *** The supervised response loop *)

(** Modelled from the spec: [schedule_with_callback] ([utils.py]) is
    missing; per §4.4 the loop runs as a background task under a wrapper
    that is called with the task once it is done.  [start] creates that
    task and keeps a reference to it. *)
Definition start (σ : state) : state :=
  let σ1 := set_active true σ in
  let t := length (tasks σ1) in
  set_task (Some t) (set_tasks (tasks σ1 ++ [Running]) σ1).

(** [_process_responses_cb]: called with the finished task;
    [process_responses.result()] returns, or re-raises what ended it. *)
Definition _process_responses_cb (process_responses : outcome unit)
    (σ : state) : state :=
  match process_responses with
  | Cancelled => σ
  | Raised e => start (emit (LogCrash e) σ)
  | Returned _ => σ
  end.

(** Task [t] is done: its outcome is recorded and the callback runs. *)
Definition finish (t : nat) (o : outcome unit) (σ : state) : state :=
  _process_responses_cb o (set_tasks (<[t := Finished o]> (tasks σ)) σ).

Definition executor_shutdown_error : exn :=
  RuntimeError "cannot schedule new futures after shutdown".

(** One turn of the [while] loop of [_process_responses], as run by task
    [t]: the test of [_active], the read handed to the executor (which
    refuses work once it is shut down; [Queue.get] refuses a closed
    queue), the sentinel test and [_process_response].  With nothing to
    read the task stays blocked.  A turn takes the hand-over of the read
    and its completion together: a read that is in flight while other
    events take place is not told apart from one that has not been handed
    over yet. *)
Definition _process_responses_step (t : nat) (σ : state) : state :=
  match tasks σ !! t with
  | Some Running =>
      if negb (_active σ) then finish t (Returned ()) σ
      else if _executor_shutdown σ then
        finish t (Raised executor_shutdown_error) σ
      else if closed (_responses σ) then
        finish t (Raised queue_closed_error) σ
      else
        match items (_responses σ) with
        | [] => σ
        | response :: rest =>
            let σ1 := set_responses {| items := rest; closed := false |} σ in
            match response with
            | END_OF_QUEUE => finish t (Returned ()) σ1
            | ReadFault e => finish t (Raised e) σ1
            | Response r =>
                match _process_response r σ1 with
                | (Ok _, σ2) => σ2
                | (Raise e, σ2) => finish t (Raised e) σ2
                end
            end
        end
  | _ => σ
  end.

(** *** Shutdown *)

(** Modelled from the spec: [terminate_queue] ([utils.py]) is missing;
    per §4.5 it pushes the end-of-stream sentinel onto the channel, and
    per §8 a second [stop()] does not fault, so the helper does not raise
    on a channel that is closed already: nothing is pushed then. *)
Definition terminate_queue (q : Queue) : Queue :=
  match put q END_OF_QUEUE with
  | Ok q' => q'
  | Raise _ => q
  end.

(** Modelled from the spec: [cancel_task] ([utils.py]) is missing; per
    §4.5 it cancels the task and waits for it to finish, and does not
    raise when the task had already returned.  Awaiting a task that ended
    with an exception re-raises it. *)
Definition cancel_task (t : nat) (σ : state) : result unit * state :=
  match tasks σ !! t with
  | Some Running => (Ok (), finish t Cancelled σ)
  | Some (Finished (Raised e)) => (Raise e, σ)
  | _ => (Ok (), σ)
  end.

(** [stop], line 135: [await terminate_queue(self._responses)].  The
    helper is awaited, so the event loop may run other work here before
    [stop] goes on. *)
Definition stop_terminate (σ : state) : state :=
  set_responses (terminate_queue (_responses σ)) σ.

(** [stop], lines 136 to 139: the channel is closed, the executor shut
    down and the task the dispatcher refers to at this point, if any,
    cancelled and awaited.  The cancelled task does nothing more of its
    own: it ends with [CancelledError] and its callback runs, which is
    recorded here at once; whatever else the event loop runs until [stop]
    is resumed are further events. *)
Definition stop_shutdown (σ : state) : result unit * state :=
  let σ2 := set_responses (close (_responses σ)) σ in
  let σ3 := set_executor_shutdown true σ2 in
  match _process_responses_task σ3 with
  | None => (Ok (), σ3)
  | Some t => cancel_task t σ3
  end.

(** [stop], with nothing else run in between. *)
Definition stop (σ : state) : result unit * state :=
  stop_shutdown (stop_terminate σ).

(** *** Schedules *)

(** What can happen next: a caller invokes [dispatch]; a worker puts an
    item on the response channel; a loop task takes a turn; the event
    loop runs a callback or resumes a caller; a caller's task is
    cancelled; the host calls [start] or [stop]. *)
Inductive event :=
  | EvDispatch (m : ModelRequestMessage)
  | EvArrive (x : item)
  | EvLoop (t : nat)
  | EvCallback
  | EvWake (k : nat)
  | EvCancel (k : nat)
  | EvStart
  | EvStop.

Definition arrive (x : item) (σ : state) : state :=
  match put (_responses σ) x with
  | Ok q => set_responses q σ
  | Raise _ => σ
  end.

Definition step (σ : state) (ev : event) : state :=
  match ev with
  | EvDispatch m => dispatch m σ
  | EvArrive x => arrive x σ
  | EvLoop t => _process_responses_step t σ
  | EvCallback => run_callback σ
  | EvWake k => wake k σ
  | EvCancel k => cancel k σ
  | EvStart => start σ
  | EvStop => (stop σ).2
  end.

Definition run (evs : list event) (σ : state) : state := foldl step σ evs.

(** The requests dispatched by a schedule, in call order. *)
Definition dispatched (evs : list event) : list ModelRequestMessage :=
  omap (λ ev, match ev with EvDispatch m => Some m | _ => None end) evs.

(** The requests sent to workers, read off the trace, each with the
    worker it went to. *)
Definition sent (tr : list effect) : list (Z * ModelRequestMessage) :=
  omap (λ e, match e with Send pid m => Some (pid, m) | _ => None end) tr.

(** The worker each request was sent to. *)
Definition assignment (tr : list effect) : list Z := (sent tr).*1.

End Dispatcher.

(** ** Predicates used to state the properties *)

Module Props.
Import Dispatcher.

(** The state of the round robin over the keys [ks] after [k] calls of
    [next]: still in the first pass over the keys, or cycling through the
    saved ones. *)
Definition cycle_at (ks : list Z) (k : nat) (c : cycle) : Prop :=
  (k ≤ length ks ∧ it c = Some (drop k ks) ∧ saved c = take k ks
     ∧ index c = 0)
  ∨ (length ks < k ∧ it c = None ∧ saved c = ks
     ∧ index c = k mod length ks).

(** Strict round robin over [ks]: call number [i] (from 0) goes to the
    key at position [i mod length ks]. *)
Definition round_robin (ks : list Z) (M : nat) : list Z :=
  omap (λ i, ks !! (i mod length ks)) (seq 0 M).

(** How many of the requests went to worker [pid]. *)
Definition received (pid : Z) (assigned : list Z) : nat :=
  length (filter (λ p, p = pid) assigned).

(** The future a scheduled callback resolves. *)
Definition target (cb : callback) : fut :=
  match cb with
  | set_result f _ => f
  | set_exception f _ => f
  end.

(** The state a scheduled callback puts its future in. *)
Definition value (cb : callback) : fstate :=
  match cb with
  | set_result _ r => FResult r
  | set_exception _ e => FException e
  end.

(** The callback [_process_response] schedules for a response whose id
    is registered with future [f]. *)
Definition callback_for (f : fut) (r : ModelResponseMessage) : callback :=
  match carried_error r with
  | Some e => set_exception f e
  | None => set_result f r
  end.




(** Two states agree on the pending-operation table, the futures, the
    scheduled callbacks and the calls. *)
Definition same_core (σ σ' : state) : Prop :=
  _async_responses σ' = _async_responses σ
  ∧ futures σ' = futures σ
  ∧ ready σ' = ready σ
  ∧ calls σ' = calls σ.

(** The correlation invariant, for the requests [ds] dispatched so far
    (in call order):
    - every suspended call is the call of its request, its future is the
      one registered under its id, and no two suspended calls share a
      future;
    - every entry of the table belongs to a suspended call (no garbage);
    - a result held by, or on its way to, the future of a suspended call
      carries that call's id;
    - a call that has returned, returned a response with its own id. *)
Record inv (ds : list ModelRequestMessage) (σ : state) : Prop := {
  inv_len : length (calls σ) = length ds;
  inv_waiting : ∀ k id f mc,
    calls σ !! k = Some (Waiting id f mc) →
    (∃ m, ds !! k = Some m ∧ req_id m = id)
    ∧ _async_responses σ !! id = Some f
    ∧ f < length (futures σ);
  inv_table : ∀ id f,
    _async_responses σ !! id = Some f →
    ∃ k mc, calls σ !! k = Some (Waiting id f mc);
  inv_fut_inj : ∀ k k' id id' f mc mc',
    calls σ !! k = Some (Waiting id f mc) →
    calls σ !! k' = Some (Waiting id' f mc') → k = k';
  inv_result : ∀ k id f mc r,
    calls σ !! k = Some (Waiting id f mc) →
    futures σ !! f = Some (FResult r) → resp_id r = id;
  inv_ready : ∀ k id f mc r,
    calls σ !! k = Some (Waiting id f mc) →
    set_result f r ∈ ready σ → resp_id r = id;
  inv_ready_bound : ∀ cb, cb ∈ ready σ → target cb < length (futures σ);
  inv_returned : ∀ k r,
    calls σ !! k = Some (Done (Returned r)) →
    ∃ m, ds !! k = Some m ∧ resp_id r = req_id m
}.



(** The order of the claim: the future of [m] is registered at some point
    of the trace and [m] is sent to a worker at a later one. *)
Definition registered_before_sent (tr : list effect)
    (m : ModelRequestMessage) : Prop :=
  ∃ i j f pid, i < j
               ∧ tr !! i = Some (Register (req_id m) f)
               ∧ tr !! j = Some (Send pid m).

(** A batch of concurrent calls: the dispatcher is started, the requests
    [reqs] are dispatched and their callers suspend; the responses
    [resps] arrive on the channel in the order of the list and the loop
    reads them; the event loop runs the callbacks and resumes the
    callers in the order [order]. *)
Definition batch (reqs : list ModelRequestMessage)
    (resps : list ModelResponseMessage) (order : list nat) : list event :=
  (EvStart :: (EvDispatch <$> reqs))
  ++ (EvArrive <$> (Response <$> resps))
  ++ replicate (length resps) (EvLoop 0)
  ++ replicate (length resps) EvCallback
  ++ (EvWake <$> order).

(** The crashes of the loop the supervising callback has logged. *)
Definition crashes (tr : list effect) : list exn :=
  omap (λ e, match e with LogCrash x => Some x | _ => None end) tr.


(** The loop task the dispatcher refers to takes one turn. *)
Definition loop_turn (σ : state) : state :=
  match _process_responses_task σ with
  | Some t => _process_responses_step t σ
  | None => σ
  end.

Fixpoint turns (n : nat) (σ : state) : state :=
  match n with
  | 0 => σ
  | S n' => turns n' (loop_turn σ)
  end.


(** The exception a read of the channel ends the loop with, if any. *)
Definition fault_of (table : gmap string fut) (x : item) : option exn :=
  match x with
  | ReadFault e => Some e
  | Response r =>
      match table !! resp_id r with
      | None => Some (KeyError (resp_id r))
      | Some _ => None
      end
  | END_OF_QUEUE => None
  end.

(** A started dispatcher whose current loop task is [t], with [xs]
    waiting on the open response channel. *)
Definition supervised (σ : state) (t : nat) (xs : list item) : Prop :=
  _process_responses_task σ = Some t
  ∧ tasks σ !! t = Some Running
  ∧ _active σ = true
  ∧ _executor_shutdown σ = false
  ∧ _responses σ = {| items := xs; closed := false |}.

(** A dispatcher with one loop: every running loop task is the one the
    dispatcher refers to, and the task it refers to is running or has
    ended without an error. *)
Definition single_loop (σ : state) : Prop :=
  (∀ t, tasks σ !! t = Some Running → _process_responses_task σ = Some t)
  ∧ ∃ t, _process_responses_task σ = Some t
         ∧ (tasks σ !! t = Some Running
            ∨ tasks σ !! t = Some (Finished (Returned ()))
            ∨ tasks σ !! t = Some (Finished Cancelled)).

(** A dispatcher that has been shut down: no loop task is running, the
    channel is closed, the executor shut down, and the task the
    dispatcher refers to has returned or was cancelled. *)
Definition shut_down (σ : state) : Prop :=
  (∀ t, tasks σ !! t ≠ Some Running)
  ∧ closed (_responses σ) = true
  ∧ _executor_shutdown σ = true
  ∧ ∃ t, _process_responses_task σ = Some t
         ∧ (tasks σ !! t = Some (Finished (Returned ()))
            ∨ tasks σ !! t = Some (Finished Cancelled)).

End Props.

(** ** Concrete dispatchers, requests and responses *)

Module Examples.
Import Dispatcher Props.

Definition idle : Worker := {| _requests := [] |}.

(** Three workers, registered in the order 10, 20, 30. *)
Definition ws3 : workers := [(10%Z, idle); (20%Z, idle); (30%Z, idle)].

Definition q0 : Queue := {| items := []; closed := false |}.

Definition rq (id : string) : ModelRequestMessage :=
  {| req_id := id; req_payload := "payload" |}.

(** A response with a success payload. *)
Definition rs (id : string) : ModelResponseMessage :=
  {| resp_id := id; return_value := "ok: 42"; exception := None |}.

(** A response with an error payload. *)
Definition rse (id : string) : ModelResponseMessage :=
  {| resp_id := id; return_value := "";
     exception := Some (OtherError "divide by zero") |}.


(** A response whose error payload is an exception object that tests
    false. *)
Definition rsf (id : string) : ModelResponseMessage :=
  {| resp_id := id; return_value := "";
     exception := Some (FalsyError "empty") |}.

Definition reqs9 : list ModelRequestMessage :=
  rq <$> ["r0"; "r1"; "r2"; "r3"; "r4"; "r5"; "r6"; "r7"; "r8"].

(** A started dispatcher with two calls suspended. *)
Definition two_waiting : state :=
  run [EvStart; EvDispatch (rq "a"); EvDispatch (rq "b")] (__init__ ws3 q0).

(** The same, with three items on the response channel: an error for
    ["b"], a response nobody waits for, and a result for ["a"]. *)
Definition three_arrived : state :=
  run [EvArrive (Response (rse "b")); EvArrive (Response (rs "zz"));
       EvArrive (Response (rs "a"))] two_waiting.

End Examples.

(** ** The registering decorators of [mlserver/codecs/base.py] *)

Module Decorators.
Import Codecs.

(** A codec class, identified by its name. *)
Definition Klass := string.

(** What the decorators act on: the dictionaries, and the codec objects
    created so far, each with its class.  A codec object is identified by
    the position at which it was created. *)
Record world := {
  dicts : store;
  objects : list Klass
}.

(** [CodecKlass()], for a class whose constructor takes no argument and
    returns: a new object of that class. *)
Definition instantiate (CodecKlass : Klass) (w : world) : codec * world :=
  (length (objects w),
   {| dicts := dicts w; objects := objects w ++ [CodecKlass] |}).

(** [register_input_codec(content_type)(CodecKlass)]: the inner function
    registers a new instance on the module's registry and returns the
    class it was given. *)
Definition register_input_codec (content_type : string)
    (CodecKlass : Klass) (w : world) : Klass * world :=
  let '(c, w1) := instantiate CodecKlass w in
  let s := (Codecs.register_input_codec _codec_registry content_type c
              (dicts w1)).2 in
  (CodecKlass, {| dicts := s; objects := objects w1 |}).

(** [register_request_codec(content_type)(CodecKlass)]. *)
Definition register_request_codec (content_type : string)
    (CodecKlass : Klass) (w : world) : Klass * world :=
  let '(c, w1) := instantiate CodecKlass w in
  let s := (Codecs.register_request_codec _codec_registry content_type c
              (dicts w1)).2 in
  (CodecKlass, {| dicts := s; objects := objects w1 |}).

(** The class of the codec a lookup returns. *)
Definition class_of (w : world) (found : result codec) : option Klass :=
  match found with
  | Ok c => objects w !! c
  | Raise _ => None
  end.

End Decorators.

(** ** Bookkeeping of the loop tasks *)

Module Supervision.
Import Dispatcher Props.

(** What an event other than [start] can do to the loop tasks, the
    [_active] flag, the task the dispatcher refers to and the log of
    crashes: nothing; the end of a running task by return or
    cancellation; or the crash of a running task, logged and answered by
    a new task. *)
Inductive loop_change (σ σ' : state) : Prop :=
  | loop_unchanged :
      tasks σ' = tasks σ → _active σ' = _active σ →
      _process_responses_task σ' = _process_responses_task σ →
      crashes (trace σ') = crashes (trace σ) →
      loop_change σ σ'
  | loop_ended (t : nat) (o : outcome unit) :
      tasks σ !! t = Some Running → (∀ e, o ≠ Raised e) →
      tasks σ' = <[t := Finished o]> (tasks σ) → _active σ' = _active σ →
      _process_responses_task σ' = _process_responses_task σ →
      crashes (trace σ') = crashes (trace σ) →
      loop_change σ σ'
  | loop_restarted (t : nat) (e : exn) :
      tasks σ !! t = Some Running →
      tasks σ' = <[t := Finished (Raised e)]> (tasks σ) ++ [Running] →
      _active σ' = true →
      _process_responses_task σ' = Some (length (tasks σ)) →
      crashes (trace σ') = crashes (trace σ) ++ [e] →
      loop_change σ σ'.

Global Instance item_eq_dec : EqDecision item.
Proof. solve_decision. Defined.
Global Instance event_eq_dec : EqDecision event.
Proof. solve_decision. Defined.

(** How often a schedule calls [start]. *)
Definition starts (evs : list event) : nat :=
  length (omap (λ ev, match ev with EvStart => Some () | _ => None end) evs).

End Supervision.

(** ** Calls whose table entry was overwritten *)

Module Orphans.
Import Dispatcher Props.

(** Call [k], suspended under [id] on the future [f], after its table
    entry has been overwritten: no id leads to [f] any more and no
    callback is aimed at it, so [f] is pending or cancelled, and the call
    is still suspended or has ended without a response. *)
Definition orphaned (k : nat) (id : string) (f : fut) (σ : state) : Prop :=
  f < length (futures σ)
  ∧ (∀ id', _async_responses σ !! id' ≠ Some f)
  ∧ (∀ cb, cb ∈ ready σ → target cb ≠ f)
  ∧ (futures σ !! f = Some FPending ∨ futures σ !! f = Some FCancelled)
  ∧ ((∃ mc, calls σ !! k = Some (Waiting id f mc))
     ∨ calls σ !! k = Some (Done Cancelled)
     ∨ calls σ !! k = Some (Done (Raised (KeyError id)))).

End Orphans.

(** ** What reaches a worker *)

Module Routing.
Import Dispatcher Props.

(** Of the requests [reqs], dispatched in this order over the keys [ks],
    those that the round robin sends to [pid], in dispatch order. *)
Definition routed (ks : list Z) (pid : Z) (reqs : list ModelRequestMessage)
  : list ModelRequestMessage :=
  (filter (λ p, p.1 = pid) (zip (round_robin ks (length reqs)) reqs)).*2.

End Routing.

(** * Properties of the codec registry *)

Section CodecRegistry.
Import Codecs.

Lemma default_locs_distinct : default_input_codecs ≠ default_request_codecs.
Proof. done. Qed.

(** Registrations never raise; the input dictionary then answers with the
    latest input registration, or as before where there is none. *)
Lemma register_all_input rs ct (s : store) :
  let out := register_all _codec_registry rs s in
  out.1 = Ok () ∧
  (out.2 !!! default_input_codecs : dict) !! ct =
    match last_input ct rs with
    | Some c => Some c
    | None => (s !!! default_input_codecs : dict) !! ct
    end.
Proof.
  revert s. induction rs as [|r rs IH]; intros s; [done|].
  cbn -[default_input_codecs default_request_codecs].
  unfold bind.
  destruct r as [ct' c|ct' c];
    cbn -[default_input_codecs default_request_codecs];
    match goal with |- context [register_all _ rs ?s'] =>
      destruct (IH s') as [Hok Hlk] end;
    (split; [exact Hok|]); rewrite Hlk;
    destruct (last_input ct rs); try done.
  - rewrite lookup_total_insert_eq.
    case_decide; simplify_map_eq; done.
  - rewrite lookup_total_insert_ne by done. done.
Qed.

Lemma register_all_request rs ct (s : store) :
  let out := register_all _codec_registry rs s in
  (out.2 !!! default_request_codecs : dict) !! ct =
    match last_request ct rs with
    | Some c => Some c
    | None => (s !!! default_request_codecs : dict) !! ct
    end.
Proof.
  revert s. induction rs as [|r rs IH]; intros s; [done|].
  cbn -[default_input_codecs default_request_codecs].
  unfold bind.
  destruct r as [ct' c|ct' c];
    cbn -[default_input_codecs default_request_codecs];
    match goal with |- context [register_all _ rs ?s'] =>
      specialize (IH s'); cbn zeta in IH; rewrite IH end;
    destruct (last_request ct rs); try done.
  - rewrite lookup_total_insert_ne by done. done.
  - rewrite lookup_total_insert_eq.
    case_decide; simplify_map_eq; done.
Qed.

(** [last_input] finds nothing exactly when the content type was never
    registered as an input codec. *)
Lemma last_input_None rs ct :
  last_input ct rs = None ↔ ∀ c, RegInput ct c ∉ rs.
Proof.
  induction rs as [|r rs IH]; cbn.
  - split; [|done]. intros _ c Hc. by apply elem_of_nil in Hc.
  - destruct (last_input ct rs) as [c0|] eqn:Hl.
    + split; [done|]. intros Hin.
      assert (Some c0 = None) as Hbad; [|done].
      apply IH. intros c Hc. apply (Hin c). by right.
    + destruct r as [ct' c|ct' c]; [case_decide as Hd|].
      * subst. split; [done|]. intros Hin. exfalso. apply (Hin c). by left.
      * split; [|done]. intros _ c0 [Heq|Hc]%elem_of_cons; [congruence|].
        by eapply IH.
      * split; [|done]. intros _ c0 [Heq|Hc]%elem_of_cons; [done|].
        by eapply IH.
Qed.

(** The latest registration of a content type wins. *)
Lemma last_input_latest rs1 rs2 ct c :
  (∀ c', RegInput ct c' ∉ rs2) →
  last_input ct (rs1 ++ RegInput ct c :: rs2) = Some c.
Proof.
  intros Hno%last_input_None.
  induction rs1 as [|r rs1 IH]; cbn.
  - rewrite Hno. by case_decide.
  - by rewrite IH.
Qed.

Lemma last_request_None rs ct :
  last_request ct rs = None ↔ ∀ c, RegRequest ct c ∉ rs.
Proof.
  induction rs as [|r rs IH]; cbn.
  - split; [|done]. intros _ c Hc. by apply elem_of_nil in Hc.
  - destruct (last_request ct rs) as [c0|] eqn:Hl.
    + split; [done|]. intros Hin.
      assert (Some c0 = None) as Hbad; [|done].
      apply IH. intros c Hc. apply (Hin c). by right.
    + destruct r as [ct' c|ct' c]; [|case_decide as Hd].
      * split; [|done]. intros _ c0 [Heq|Hc]%elem_of_cons; [done|].
        by eapply IH.
      * subst. split; [done|]. intros Hin. exfalso. apply (Hin c). by left.
      * split; [|done]. intros _ c0 [Heq|Hc]%elem_of_cons; [congruence|].
        by eapply IH.
Qed.

Lemma last_request_latest rs1 rs2 ct c :
  (∀ c', RegRequest ct c' ∉ rs2) →
  last_request ct (rs1 ++ RegRequest ct c :: rs2) = Some c.
Proof.
  intros Hno%last_request_None.
  induction rs1 as [|r rs1 IH]; cbn.
  - rewrite Hno. by case_decide.
  - by rewrite IH.
Qed.

(** C9: on the module's registry, after any history of registrations,
    [find_input_codec] and [find_request_codec] raise [KeyError] for a
    content type that was never registered (no default, no [None]) and
    return the codec of the latest registration otherwise: a later
    registration overwrites an earlier one without complaint.  Neither
    lookup changes the store. *)
Theorem find_codec_after_registrations (rs : list registration) (ct : string) :
  let out := register_all _codec_registry rs class_store in
  out.1 = Ok () ∧
  find_input_codec _codec_registry ct out.2
    = (lookup_result ct (last_input ct rs), out.2) ∧
  find_request_codec _codec_registry ct out.2
    = (lookup_result ct (last_request ct rs), out.2) ∧
  (last_input ct rs = None ↔ ∀ c, RegInput ct c ∉ rs) ∧
  (last_request ct rs = None ↔ ∀ c, RegRequest ct c ∉ rs) ∧
  (∀ rs1 rs2 c, rs = rs1 ++ RegInput ct c :: rs2 →
     (∀ c', RegInput ct c' ∉ rs2) → last_input ct rs = Some c) ∧
  (∀ rs1 rs2 c, rs = rs1 ++ RegRequest ct c :: rs2 →
     (∀ c', RegRequest ct c' ∉ rs2) → last_request ct rs = Some c).
Proof.
  intros out.
  destruct (register_all_input rs ct class_store) as [Hok Hin].
  pose proof (register_all_request rs ct class_store) as Hrq.
  cbn zeta in Hin, Hrq. fold out in Hok, Hin, Hrq.
  split; [exact Hok|].
  split; [|split; [|split; [|split; [|split]]]].
  - unfold find_input_codec, getitem. change (_input_codecs _codec_registry)
      with default_input_codecs. rewrite Hin.
    destruct (last_input ct rs); [done|].
    unfold class_store.
    rewrite lookup_total_insert_ne, lookup_total_insert_eq by done. done.
  - unfold find_request_codec, getitem.
    change (_request_codecs _codec_registry) with default_request_codecs.
    rewrite Hrq. destruct (last_request ct rs); [done|].
    unfold class_store. rewrite lookup_total_insert_eq. done.
  - apply last_input_None.
  - apply last_request_None.
  - intros rs1 rs2 c -> Hno. by apply last_input_latest.
  - intros rs1 rs2 c -> Hno. by apply last_request_latest.
Qed.

(** A registry built over dictionaries of its own does not see what is
    registered through the defaults. *)
Lemma explicit_dicts_not_shared (s : store) ct c :
  let '(_, s1) := new_dict s in
  let l := fresh (dom s) in
  default_input_codecs ∈ dom s →
  let r1 := __init__ None None in
  let r2 := __init__ (Some l) None in
  (find_input_codec r2 ct (register_input_codec r1 ct c s1).2).1
    = Raise (KeyError ct).
Proof.
  cbn -[default_input_codecs]. intros Hd.
  unfold find_input_codec, register_input_codec, getitem, setitem.
  cbn -[default_input_codecs].
  assert (fresh (dom s) ≠ default_input_codecs) as Hne.
  { intros Heq. apply (is_fresh (dom s)). by rewrite Heq. }
  rewrite lookup_total_insert_ne by done.
  rewrite lookup_total_insert_eq. done.
Qed.

(** C10: two registries built without dictionary arguments hold the same
    two dictionaries, the defaults of [__init__]: a codec registered on
    one is what the other finds, for input and for request codecs. *)
Theorem default_registries_share (s : store) (ct : string) (c : codec) :
  let r1 := __init__ None None in
  let r2 := __init__ None None in
  _input_codecs r1 = _input_codecs r2 ∧
  _request_codecs r1 = _request_codecs r2 ∧
  (find_input_codec r2 ct (register_input_codec r1 ct c s).2).1 = Ok c ∧
  (find_request_codec r2 ct (register_request_codec r1 ct c s).2).1 = Ok c.
Proof.
  cbn -[default_input_codecs default_request_codecs].
  unfold find_input_codec, find_request_codec, register_input_codec,
    register_request_codec, getitem, setitem.
  cbn -[default_input_codecs default_request_codecs].
  rewrite !lookup_total_insert_eq, !lookup_insert_eq. done.
Qed.

End CodecRegistry.

(** * Worker selection *)

Section RoundRobin.
Import Dispatcher Props Examples.

Lemma mod_succ (n k : nat) :
  0 < n →
  S k mod n = if decide (n ≤ S (k mod n)) then 0 else S (k mod n).
Proof.
  intros Hn.
  pose proof (Nat.div_mod_eq k n) as Hk.
  pose proof (Nat.mod_upper_bound k n ltac:(lia)) as Hr.
  case_decide as Hd.
  - symmetry. apply (Nat.mod_unique _ _ (S (k / n))); lia.
  - symmetry. apply (Nat.mod_unique _ _ (k / n)); lia.
Qed.

(** One call of [next] yields the key the round robin is at and moves
    on by one. *)
Lemma cycle_next_at (ks : list Z) (k : nat) (c : cycle) :
  0 < length ks → cycle_at ks k c →
  ∃ pid c', cycle_next c = Some (pid, c')
            ∧ ks !! (k mod length ks) = Some pid
            ∧ cycle_at ks (S k) c'.
Proof.
  intros Hn [(Hk & Hit & Hsv & Hix)|(Hk & Hit & Hsv & Hix)].
  - destruct (decide (k = length ks)) as [->|Hne].
    + destruct (lookup_lt_is_Some_2 ks 0 Hn) as [x Hx].
      rewrite drop_all in Hit. rewrite firstn_all in Hsv.
      exists x. eexists. unfold cycle_next. rewrite Hit, Hsv, Hix, Hx.
      split; [done|]. rewrite Nat.Div0.mod_same. split; [done|].
      right. cbn. split_and!; [lia|done|done|].
      rewrite (mod_succ _ _ Hn), Nat.Div0.mod_same. done.
    + assert (k < length ks) as Hlt by lia.
      destruct (lookup_lt_is_Some_2 ks k Hlt) as [x Hx].
      exists x. eexists. unfold cycle_next.
      rewrite Hit, (drop_S _ _ _ Hx).
      split; [done|]. rewrite Nat.mod_small by done. split; [done|].
      left. cbn. split_and!; [lia|done| |done].
      rewrite Hsv. symmetry. by apply take_S_r.
  - pose proof (Nat.mod_upper_bound k (length ks) ltac:(lia)) as Hr.
    destruct (lookup_lt_is_Some_2 ks _ Hr) as [x Hx].
    exists x. eexists. unfold cycle_next. rewrite Hit, Hsv, Hix, Hx.
    split; [done|]. split; [done|].
    right. cbn. split_and!; [lia|done|done|].
    by rewrite (mod_succ _ _ Hn).
Qed.

Lemma cycle_new_at (ks : list Z) : cycle_at ks 0 (cycle_new ks).
Proof. left. cbn. split_and!; [lia|done|done|done]. Qed.

Lemma workers_get_keys (ws : workers) (pid : Z) :
  pid ∈ keys ws → is_Some (workers_get ws pid).
Proof.
  unfold keys. induction ws as [|[k w] ws IH]; cbn.
  - intros H. by apply elem_of_nil in H.
  - intros [->|Hin]%elem_of_cons; case_decide; eauto; done.
Qed.

Lemma workers_update_keys (ws : workers) (pid : Z) (f : Worker → Worker) :
  keys (workers_update ws pid f) = keys ws.
Proof.
  unfold keys. induction ws as [|[k w] ws IH]; cbn; [done|].
  case_decide; cbn; by rewrite ?IH.
Qed.

(** Two states with the same fields are the same state. *)
Lemma state_eq (σ σ' : state) :
  _responses σ = _responses σ' → _workers σ = _workers σ' →
  _workers_round_robin σ = _workers_round_robin σ' →
  _active σ = _active σ' →
  _process_responses_task σ = _process_responses_task σ' →
  _executor_shutdown σ = _executor_shutdown σ' →
  _async_responses σ = _async_responses σ' → tasks σ = tasks σ' →
  futures σ = futures σ' → ready σ = ready σ' → calls σ = calls σ' →
  trace σ = trace σ' → σ = σ'.
Proof. destruct σ, σ'; cbn; intros; by subst. Qed.

(** [dispatch] spelled out, for a round robin that yields [pid]. *)
Lemma dispatch_ok (m : ModelRequestMessage) (σ : state) pid c w :
  cycle_next (_workers_round_robin σ) = Some (pid, c) →
  workers_get (_workers σ) pid = Some w →
  dispatch m σ =
    {| _responses := _responses σ;
       _workers := workers_update (_workers σ) pid (λ w, send_request w m);
       _workers_round_robin := c; _active := _active σ;
       _process_responses_task := _process_responses_task σ;
       _executor_shutdown := _executor_shutdown σ;
       _async_responses :=
         <[req_id m := length (futures σ)]> (_async_responses σ);
       tasks := tasks σ; futures := futures σ ++ [FPending];
       ready := ready σ;
       calls := calls σ ++ [Waiting (req_id m) (length (futures σ)) false];
       trace := trace σ ++ [ObserveQueue pid (qsize w); Send pid m;
                            ObserveTasks;
                            Register (req_id m) (length (futures σ))] |}.
Proof.
  intros Hnext Hget.
  unfold dispatch, dispatch_submit, _get_worker. rewrite Hnext. cbn.
  rewrite Hget. cbn.
  unfold _wait_response_enter, dispatch_register. cbn.
  rewrite lookup_insert_eq. unfold add_call. cbn.
  apply state_eq; cbn; try reflexivity.
  rewrite <- !app_assoc. reflexivity.
Qed.

(** With no worker registered [next] raises at once and [dispatch] fails
    before anything is sent or registered. *)
Lemma dispatch_no_worker (m : ModelRequestMessage) (σ : state) :
  cycle_next (_workers_round_robin σ) = None →
  dispatch m σ =
    add_call
      (Done (Raised (RuntimeError "coroutine raised StopIteration"))) σ.
Proof.
  intros Hnext. unfold dispatch, dispatch_submit, _get_worker.
  by rewrite Hnext.
Qed.

Lemma sent_app (tr1 tr2 : list effect) :
  sent (tr1 ++ tr2) = sent tr1 ++ sent tr2.
Proof. apply omap_app. Qed.

Lemma round_robin_length (ks : list Z) (M : nat) :
  0 < length ks → length (round_robin ks M) = M.
Proof.
  intros Hn. induction M as [|M IH]; [done|].
  unfold round_robin in *. rewrite seq_S, omap_app, length_app, IH. cbn.
  pose proof (Nat.mod_upper_bound M (length ks) ltac:(lia)) as Hr.
  destruct (lookup_lt_is_Some_2 ks _ Hr) as [x ->]. cbn. lia.
Qed.

Lemma round_robin_S (ks : list Z) (M : nat) pid :
  ks !! (M mod length ks) = Some pid →
  round_robin ks (S M) = round_robin ks M ++ [pid].
Proof.
  intros Hpid. unfold round_robin.
  rewrite seq_S, omap_app. cbn. by rewrite Hpid.
Qed.

(** Sequential [dispatch] calls follow the round robin, whatever the
    workers' queues hold. *)
Lemma dispatch_all_round_robin (ws : workers) (q : Queue)
    (reqs : list ModelRequestMessage) :
  0 < length ws →
  let σ := run (EvDispatch <$> reqs) (__init__ ws q) in
  keys (_workers σ) = keys ws
  ∧ cycle_at (keys ws) (length reqs) (_workers_round_robin σ)
  ∧ sent (trace σ) = zip (round_robin (keys ws) (length reqs)) reqs.
Proof.
  intros Hn. induction reqs as [|m reqs IH] using rev_ind.
  - cbn. split_and!; [done|apply cycle_new_at|done].
  - cbn zeta in *. unfold run in *. rewrite fmap_app, foldl_app. cbn.
    destruct IH as (Hk & Hc & Ha).
    set (σ := foldl step (__init__ ws q) (EvDispatch <$> reqs)) in *.
    assert (0 < length (keys ws)) as Hn'.
    { unfold keys. by rewrite length_fmap. }
    destruct (cycle_next_at _ _ _ Hn' Hc) as (pid & c' & Hnext & Hpid & Hc').
    assert (pid ∈ keys (_workers σ)) as Hin.
    { rewrite Hk. by eapply list_elem_of_lookup_2. }
    destruct (workers_get_keys _ _ Hin) as [w Hw].
    rewrite (dispatch_ok _ _ _ _ _ Hnext Hw).
    rewrite length_app, Nat.add_1_r.
    cbn [_workers _workers_round_robin trace].
    split_and!.
    + by rewrite workers_update_keys.
    + done.
    + rewrite sent_app, Ha, (round_robin_S _ _ _ Hpid).
      rewrite zip_with_app; [done|]. by rewrite round_robin_length.
Qed.

Lemma round_robin_lookup (ks : list Z) (M i : nat) :
  0 < length ks → i < M →
  round_robin ks M !! i = ks !! (i mod length ks).
Proof.
  intros Hn Hi. induction M as [|M IH]; [lia|].
  pose proof (Nat.mod_upper_bound M (length ks) ltac:(lia)) as Hr.
  destruct (lookup_lt_is_Some_2 _ _ Hr) as [p Hp].
  rewrite (round_robin_S _ _ _ Hp).
  pose proof (round_robin_length ks M Hn) as Hlen.
  destruct (decide (i = M)) as [->|Hne].
  - rewrite lookup_app_r by lia. rewrite Hlen, Nat.sub_diag. done.
  - rewrite lookup_app_l by lia. apply IH. lia.
Qed.

Lemma div_succ (n k : nat) :
  0 < n →
  S k / n = if decide (n ≤ S (k mod n)) then S (k / n) else k / n.
Proof.
  intros Hn.
  pose proof (Nat.div_mod_eq k n) as Hk.
  pose proof (Nat.mod_upper_bound k n ltac:(lia)) as Hr.
  case_decide as Hd.
  - symmetry. apply (Nat.div_unique _ _ _ 0); lia.
  - symmetry. apply (Nat.div_unique _ _ _ (S (k mod n))); lia.
Qed.

Lemma received_snoc (pid p : Z) (l : list Z) :
  received pid (l ++ [p])
  = received pid l + (if decide (p = pid) then 1 else 0).
Proof.
  unfold received. rewrite filter_app, length_app. f_equal.
  rewrite filter_cons, filter_nil. by case_decide.
Qed.

(** Of [M] requests dealt out over [N] workers, the worker at position
    [j] receives [M / N], and one more when [j < M mod N]. *)
Lemma received_round_robin (ks : list Z) (M j : nat) (pid : Z) :
  NoDup ks → ks !! j = Some pid →
  received pid (round_robin ks M)
  = M / length ks + (if decide (j < M mod length ks) then 1 else 0).
Proof.
  intros Hnd Hj.
  assert (j < length ks) as Hjn by (by eapply lookup_lt_Some).
  assert (0 < length ks) as Hn by lia.
  induction M as [|M IH].
  - cbn. rewrite Nat.Div0.div_0_l, Nat.Div0.mod_0_l.
    case_decide; [lia|done].
  - pose proof (Nat.mod_upper_bound M (length ks) ltac:(lia)) as Hr.
    destruct (lookup_lt_is_Some_2 ks _ Hr) as [p Hp].
    rewrite (round_robin_S _ _ _ Hp), received_snoc, IH.
    rewrite (div_succ _ _ Hn), (mod_succ _ _ Hn).
    assert (p = pid ↔ M mod length ks = j) as Hiff.
    { split; [intros ->; by eapply NoDup_lookup|intros Heq].
      rewrite Heq in Hp. congruence. }
    repeat case_decide; lia.
Qed.

Lemma ceil_div (M N : nat) :
  0 < N → 0 < M mod N → (M + N - 1) / N = M / N + 1.
Proof.
  intros Hn Hr.
  pose proof (Nat.div_mod_eq M N) as Hk.
  pose proof (Nat.mod_upper_bound M N ltac:(lia)) as Hlt.
  symmetry. apply (Nat.div_unique _ _ _ (M mod N - 1)); lia.
Qed.

(** C3: [M] sequential [dispatch] calls on a dispatcher built over [N]
    workers send request number [i] (from 0) to the worker registered at
    position [i mod N], whatever the workers' queues hold (no worker is
    skipped for being busy): the assignment has period [N], and every
    worker receives [M / N] requests rounded down or up.  This holds for
    every [M], so for [M >= N] too. *)
Theorem dispatch_round_robin (ws : workers) (q : Queue)
    (reqs : list ModelRequestMessage) :
  NoDup (keys ws) → 0 < length ws →
  let N := length ws in
  let M := length reqs in
  let σ := run (EvDispatch <$> reqs) (__init__ ws q) in
  let assigned := assignment (trace σ) in
  sent (trace σ) = zip assigned reqs
  ∧ length assigned = M
  ∧ (∀ i, i < M → assigned !! i = keys ws !! (i mod N))
  ∧ (∀ i, i + N < M → assigned !! (i + N) = assigned !! i)
  ∧ (∀ pid, pid ∈ keys ws →
       received pid assigned = M / N
       ∨ received pid assigned = (M + N - 1) / N).
Proof.
  intros Hnd Hn N M σ assigned.
  assert (length (keys ws) = length ws) as Hkl
    by (unfold keys; by rewrite length_fmap).
  subst N. rewrite <- Hkl.
  assert (0 < length (keys ws)) as Hn' by lia.
  destruct (dispatch_all_round_robin ws q reqs Hn) as (_ & _ & Hsent).
  fold σ in Hsent. fold M in Hsent.
  pose proof (round_robin_length (keys ws) M Hn') as Hlen.
  assert (assigned = round_robin (keys ws) M) as Has.
  { unfold assigned, assignment. rewrite Hsent.
    rewrite fst_zip; [done|]. fold M. lia. }
  clearbody assigned. subst assigned. split_and!.
  - done.
  - done.
  - intros i Hi. by apply round_robin_lookup.
  - intros i Hi. rewrite !round_robin_lookup by lia. f_equal.
    rewrite <- (Nat.Div0.mod_add i 1 (length (keys ws))). f_equal. lia.
  - intros pid [j Hj]%list_elem_of_lookup_1.
    rewrite (received_round_robin _ _ _ _ Hnd Hj).
    case_decide as Hd; [right|left; lia].
    rewrite ceil_div; lia.
Qed.

Lemma dispatch_round_robin_witness :
  NoDup (keys ws3) ∧ 0 < length ws3
  ∧ assignment (trace (run (EvDispatch <$> reqs9) (__init__ ws3 q0))) !! 4
    = Some 20%Z
  ∧ received 20
      (assignment (trace (run (EvDispatch <$> reqs9) (__init__ ws3 q0))))
    = 3.
Proof.
  assert (NoDup (keys ws3)) as Hnd.
  { apply (bool_decide_unpack _). by vm_compute. }
  assert (0 < length ws3) as Hn by (cbn; lia).
  split; [exact Hnd|]. split; [exact Hn|].
  destruct (dispatch_round_robin ws3 q0 reqs9 Hnd Hn)
    as (_ & _ & Hat & _ & _).
  split; [|by vm_compute].
  rewrite Hat; [reflexivity|cbn; lia].
Defined.

(** The scenario of the specification: three workers, nine calls. *)
Example scenario_round_robin :
  assignment (trace (run (EvDispatch <$> reqs9) (__init__ ws3 q0)))
  = [10; 20; 30; 10; 20; 30; 10; 20; 30]%Z.
Proof. by vm_compute. Qed.

End RoundRobin.

(** * The correlation invariant *)

Section Correlation.
Import Dispatcher Props.

Lemma same_core_refl σ : same_core σ σ.
Proof. by split_and!. Qed.

Lemma same_core_trans σ1 σ2 σ3 :
  same_core σ1 σ2 → same_core σ2 σ3 → same_core σ1 σ3.
Proof.
  intros (?&?&?&?) (?&?&?&?). split_and!; congruence.
Qed.

Lemma inv_same_core ds σ σ' : same_core σ σ' → inv ds σ → inv ds σ'.
Proof.
  intros (Ht & Hf & Hr & Hc) [H1 H2 H3 H4 H5 H6 H7 H8].
  split; rewrite ?Ht, ?Hf, ?Hr, ?Hc; done.
Qed.

(** What [start], the loop's bookkeeping and [stop] leave alone. *)
Lemma start_core σ : same_core σ (start σ).
Proof. by split_and!. Qed.

Lemma finish_core t o σ : same_core σ (finish t o σ).
Proof. destruct o; by split_and!. Qed.

Lemma arrive_core x σ : same_core σ (arrive x σ).
Proof. unfold arrive. destruct (put _ _); by split_and!. Qed.

Lemma cancel_task_core t σ : same_core σ (cancel_task t σ).2.
Proof.
  unfold cancel_task. destruct (tasks σ !! t) as [[|[| |]]|]; cbn [snd];
    try apply same_core_refl.
  apply finish_core.
Qed.

Lemma stop_terminate_core σ : same_core σ (stop_terminate σ).
Proof. by split_and!. Qed.

Lemma stop_shutdown_core σ : same_core σ (stop_shutdown σ).2.
Proof.
  unfold stop_shutdown.
  cbn [_process_responses_task set_executor_shutdown set_responses].
  destruct (_process_responses_task σ) as [t|]; cbn [snd];
    [|by split_and!].
  eapply same_core_trans; [|apply cancel_task_core]. by split_and!.
Qed.

Lemma stop_core σ : same_core σ (stop σ).2.
Proof.
  unfold stop. eapply same_core_trans; [apply stop_terminate_core|].
  apply stop_shutdown_core.
Qed.

(** [_process_response] either raises [KeyError] and changes nothing, or
    schedules the callback for the registered future. *)
Lemma _process_response_cases r σ :
  (_async_responses σ !! resp_id r = None
   ∧ _process_response r σ = (Raise (KeyError (resp_id r)), σ))
  ∨ (∃ f, _async_responses σ !! resp_id r = Some f
          ∧ _process_response r σ
            = (Ok (), call_soon_threadsafe (callback_for f r) σ)).
Proof.
  unfold _process_response, callback_for.
  destruct (_async_responses σ !! resp_id r) as [f|]; [right|left; done].
  exists f. split; [done|]. by destruct (carried_error r).
Qed.

(** One turn of the loop changes the core only by scheduling the
    callback of a response whose id is registered. *)
Lemma _process_responses_step_core t σ :
  same_core σ (_process_responses_step t σ)
  ∨ (∃ r f, _async_responses σ !! resp_id r = Some f
            ∧ _async_responses (_process_responses_step t σ) = _async_responses σ
            ∧ futures (_process_responses_step t σ) = futures σ
            ∧ ready (_process_responses_step t σ) = ready σ ++ [callback_for f r]
            ∧ calls (_process_responses_step t σ) = calls σ).
Proof.
  unfold _process_responses_step.
  destruct (tasks σ !! t) as [[|o]|]; try (left; apply same_core_refl).
  destruct (_active σ); cbn [negb]; [|left; apply finish_core].
  destruct (_executor_shutdown σ); [left; apply finish_core|].
  destruct (closed (_responses σ)); [left; apply finish_core|].
  destruct (items (_responses σ)) as [|[r| |e] rest];
    [left; apply same_core_refl| | |].
  - set (σ1 := set_responses _ σ).
    destruct (_process_response_cases r σ1) as [[Hn ->]|(f & Hf & ->)].
    + left. eapply same_core_trans; [|apply finish_core]. by split_and!.
    + right. exists r, f. by split_and!.
  - left. eapply same_core_trans; [|apply finish_core]. by split_and!.
  - left. eapply same_core_trans; [|apply finish_core]. by split_and!.
Qed.

(** [dispatch] either fails before anything is registered, or registers
    a fresh pending future under the request's id and suspends on it. *)
Lemma dispatch_core m σ :
  (∃ e, _async_responses (dispatch m σ) = _async_responses σ
        ∧ futures (dispatch m σ) = futures σ
        ∧ ready (dispatch m σ) = ready σ
        ∧ calls (dispatch m σ) = calls σ ++ [Done (Raised e)])
  ∨ (_async_responses (dispatch m σ)
       = <[req_id m := length (futures σ)]> (_async_responses σ)
     ∧ futures (dispatch m σ) = futures σ ++ [FPending]
     ∧ ready (dispatch m σ) = ready σ
     ∧ calls (dispatch m σ)
       = calls σ ++ [Waiting (req_id m) (length (futures σ)) false]).
Proof.
  unfold dispatch, dispatch_submit, _get_worker.
  destruct (cycle_next _) as [[pid c]|]; [|left; by eexists].
  cbn. destruct (workers_get _ _) as [w|]; [|left; by eexists].
  right. cbn. unfold _wait_response_enter, dispatch_register. cbn.
  rewrite lookup_insert_eq. by split_and!.
Qed.

Lemma inv_init ws q : inv [] (__init__ ws q).
Proof.
  split; cbn; try done.
  all: intros; repeat match goal with
    | H : _ ∈ [] |- _ => by apply elem_of_nil in H
    | H : ∅ !! _ = Some _ |- _ => by rewrite lookup_empty in H
    end.
Qed.

(** A failed [dispatch] only adds a finished call. *)
Lemma inv_dispatch_failed ds σ σ' m e :
  _async_responses σ' = _async_responses σ →
  futures σ' = futures σ → ready σ' = ready σ →
  calls σ' = calls σ ++ [Done (Raised e)] →
  inv ds σ → inv (ds ++ [m]) σ'.
Proof.
  intros Ht Hf Hr Hc [H1 H2 H3 H4 H5 H6 H7 H8].
  assert (∀ k c, (calls σ ++ [Done (Raised e)]) !! k = Some c →
                 c ≠ Done (Raised e) → calls σ !! k = Some c) as Hold.
  { intros k c [Hk|[_ [_ <-]%list_lookup_singleton_Some]]%lookup_app_Some;
      done. }
  split; rewrite ?Ht, ?Hf, ?Hr, ?Hc.
  - rewrite !length_app. cbn. lia.
  - intros k id f mc Hk%Hold; [|done].
    destruct (H2 _ _ _ _ Hk) as ((m' & Hm' & Hid) & Htb & Hlt).
    split_and!; [|done|done]. exists m'. split; [|done].
    by apply lookup_app_l_Some.
  - intros id f (k & mc & Hk)%H3. exists k, mc.
    by apply lookup_app_l_Some.
  - intros k k' id id' f mc mc' Hk%Hold Hk'%Hold; eauto.
  - intros k id f mc r Hk%Hold; eauto.
  - intros k id f mc r Hk%Hold; eauto.
  - done.
  - intros k r Hk%Hold; [|done].
    destruct (H8 _ _ Hk) as (m' & Hm' & Hid). exists m'.
    split; [|done]. by apply lookup_app_l_Some.
Qed.

(** A [dispatch] that suspends keeps the invariant when the request's id
    is not the id of an earlier request. *)
Lemma inv_dispatch_ok ds σ σ' m :
  req_id m ∉ req_id <$> ds →
  _async_responses σ'
    = <[req_id m := length (futures σ)]> (_async_responses σ) →
  futures σ' = futures σ ++ [FPending] → ready σ' = ready σ →
  calls σ' = calls σ ++ [Waiting (req_id m) (length (futures σ)) false] →
  inv ds σ → inv (ds ++ [m]) σ'.
Proof.
  intros Hfresh Ht Hf Hr Hc [H1 H2 H3 H4 H5 H6 H7 H8].
  set (new := Waiting (req_id m) (length (futures σ)) false) in *.
  assert (∀ k c, (calls σ ++ [new]) !! k = Some c →
                 calls σ !! k = Some c
                 ∨ (k = length (calls σ) ∧ c = new)) as Hsplit.
  { intros k c [Hk|[Hge [Hz <-]%list_lookup_singleton_Some]]%lookup_app_Some;
      [by left|right]. split; [lia|done]. }
  assert (∀ k id f mc, calls σ !! k = Some (Waiting id f mc) →
                       id ≠ req_id m) as Hne.
  { intros k id f mc Hk Heq.
    destruct (H2 _ _ _ _ Hk) as ((m' & Hm' & Hid) & _).
    apply Hfresh. rewrite <- Heq, <- Hid.
    apply list_elem_of_fmap_2. by eapply list_elem_of_lookup_2. }
  split; rewrite ?Ht, ?Hf, ?Hr, ?Hc.
  - rewrite !length_app. cbn. lia.
  - intros k id f mc [Hk|[-> Heq]]%Hsplit.
    + destruct (H2 _ _ _ _ Hk) as ((m' & Hm' & Hid) & Htb & Hlt).
      split_and!.
      * exists m'. split; [|done]. by apply lookup_app_l_Some.
      * rewrite lookup_insert_ne; [done|]. intros Heq.
        by eapply Hne.
      * rewrite length_app. lia.
    + injection Heq as -> -> ->. split_and!.
      * exists m. split; [|done]. rewrite H1.
        rewrite lookup_app_r by lia. by rewrite Nat.sub_diag.
      * by rewrite lookup_insert_eq.
      * rewrite length_app. cbn. lia.
  - intros id f [[<- <-]|[Hne' Hold]]%lookup_insert_Some.
    + exists (length (calls σ)), false.
      rewrite lookup_app_r by lia. by rewrite Nat.sub_diag.
    + destruct (H3 _ _ Hold) as (k & mc & Hk). exists k, mc.
      by apply lookup_app_l_Some.
  - intros k k' id id' f mc mc' [Hk|[-> Heq]]%Hsplit [Hk'|[-> Heq']]%Hsplit.
    + eauto.
    + injection Heq' as -> -> ->.
      destruct (H2 _ _ _ _ Hk) as (_ & _ & Hlt). lia.
    + injection Heq as -> -> ->.
      destruct (H2 _ _ _ _ Hk') as (_ & _ & Hlt). lia.
    + done.
  - intros k id f mc r [Hk|[-> Heq]]%Hsplit Hfr.
    + destruct (H2 _ _ _ _ Hk) as (_ & _ & Hlt).
      rewrite lookup_app_l in Hfr by done. eauto.
    + injection Heq as -> -> ->.
      rewrite lookup_app_r in Hfr by lia.
      by rewrite Nat.sub_diag in Hfr.
  - intros k id f mc r [Hk|[-> Heq]]%Hsplit Hin.
    + eauto.
    + injection Heq as -> -> ->.
      apply H7 in Hin. cbn in Hin. lia.
  - intros cb Hin%H7. rewrite length_app. lia.
  - intros k r [Hk|[-> Heq]]%Hsplit; [|done].
    destruct (H8 _ _ Hk) as (m' & Hm' & Hid). exists m'.
    split; [|done]. by apply lookup_app_l_Some.
Qed.

Lemma inv_dispatch ds σ m :
  req_id m ∉ req_id <$> ds → inv ds σ → inv (ds ++ [m]) (dispatch m σ).
Proof.
  intros Hfresh Hinv.
  destruct (dispatch_core m σ) as [(e & Ht & Hf & Hr & Hc)|(Ht & Hf & Hr & Hc)].
  - by eapply inv_dispatch_failed.
  - by eapply inv_dispatch_ok.
Qed.

(** Scheduling the callback of a response whose id is registered. *)
Lemma inv_schedule ds σ σ' r f :
  _async_responses σ !! resp_id r = Some f →
  _async_responses σ' = _async_responses σ →
  futures σ' = futures σ →
  ready σ' = ready σ ++ [callback_for f r] →
  calls σ' = calls σ →
  inv ds σ → inv ds σ'.
Proof.
  intros Hreg Ht Hf Hr Hc [H1 H2 H3 H4 H5 H6 H7 H8].
  destruct (H3 _ _ Hreg) as (k0 & mc0 & Hk0).
  split; rewrite ?Ht, ?Hf, ?Hr, ?Hc; try done.
  - intros k id f' mc r' Hk [Hin|Hin%list_elem_of_singleton]%elem_of_app;
      [eauto|].
    unfold callback_for in Hin. destruct (carried_error r); [done|].
    injection Hin as -> ->.
    assert (k = k0) as -> by eauto. congruence.
  - intros cb [Hin|Hin%list_elem_of_singleton]%elem_of_app; [eauto|].
    subst cb. destruct (H2 _ _ _ _ Hk0) as (_ & _ & Hlt).
    unfold callback_for. by destruct (carried_error r).
Qed.

Lemma inv__process_responses_step ds t σ : inv ds σ → inv ds (_process_responses_step t σ).
Proof.
  intros Hinv.
  destruct (_process_responses_step_core t σ) as [Hsame|(r & f & Hreg & Ht & Hf & Hr & Hc)].
  - by eapply inv_same_core.
  - by eapply inv_schedule.
Qed.

(** Running a callback drops it from the queue and, at most, resolves
    the pending future it targets. *)
Lemma run_callback_core σ :
  same_core σ (run_callback σ)
  ∨ ∃ cb cbs,
      ready σ = cb :: cbs
      ∧ _async_responses (run_callback σ) = _async_responses σ
      ∧ calls (run_callback σ) = calls σ
      ∧ ready (run_callback σ) = cbs
      ∧ (futures (run_callback σ) = futures σ
         ∨ (futures σ !! target cb = Some FPending
            ∧ futures (run_callback σ)
              = <[target cb := value cb]> (futures σ))).
Proof.
  unfold run_callback.
  destruct (ready σ) as [|cb cbs] eqn:Hr; [left; apply same_core_refl|].
  right. exists cb, cbs. split; [done|].
  destruct cb as [f r|f e]; unfold resolve;
    cbn [futures set_ready target value];
    (destruct (futures σ !! f) as [[| | |]|] eqn:Hf;
     [try destruct e|..];
     split_and!; try done; first [by left | by right]).
Qed.

Lemma inv_run_callback ds σ : inv ds σ → inv ds (run_callback σ).
Proof.
  intros Hinv.
  destruct (run_callback_core σ)
    as [Hsame|(cb & cbs & Hrd & Ht & Hc & Hr & Hf)];
    [by eapply inv_same_core|].
  destruct Hinv as [H1 H2 H3 H4 H5 H6 H7 H8].
  assert (∀ cb', cb' ∈ cbs → cb' ∈ ready σ) as Hsub.
  { intros cb' Hin. rewrite Hrd. by right. }
  assert (length (futures (run_callback σ)) = length (futures σ)) as Hlen.
  { destruct Hf as [->|[_ ->]]; [done|]. by rewrite length_insert. }
  split; rewrite ?Ht, ?Hr, ?Hc, ?Hlen; try done.
  - intros k id f mc r Hk Hfr.
    destruct Hf as [Hf|[Hp Hf]]; rewrite Hf in Hfr; [eauto|].
    apply list_lookup_insert_Some in Hfr
      as [(Heq & Hv & _)|[Hne Hold]]; [|eauto].
    subst f. eapply H6; [done|]. rewrite Hrd.
    destruct cb as [f' r'|f' e']; cbn in *; [|done].
    injection Hv as ->. by left.
  - intros k id f mc r Hk Hin. eauto.
  - intros cb' Hin. eauto.
Qed.

(** Resuming a call. *)
Lemma wake_core k σ :
  wake k σ = σ
  ∨ ∃ id f mc o,
      calls σ !! k = Some (Waiting id f mc)
      ∧ futures σ !! f ≫= awaited mc = Some o
      ∧ futures (wake k σ) = futures σ
      ∧ ready (wake k σ) = ready σ
      ∧ ((_async_responses σ !! id = None
          ∧ _async_responses (wake k σ) = _async_responses σ
          ∧ calls (wake k σ) = <[k := Done (Raised (KeyError id))]> (calls σ))
         ∨ (is_Some (_async_responses σ !! id)
            ∧ _async_responses (wake k σ) = delete id (_async_responses σ)
            ∧ calls (wake k σ) = <[k := Done o]> (calls σ))).
Proof.
  unfold wake.
  destruct (calls σ !! k) as [[id f mc|o']|] eqn:Hk; [|by left|by left].
  destruct (futures σ !! f ≫= awaited mc) as [o|] eqn:Ho; [|by left].
  right. exists id, f, mc, o. split; [done|]. split; [done|].
  unfold _wait_response_resume, delitem.
  destruct (_async_responses σ !! id) as [f'|] eqn:Ht.
  - split_and!; [done|done|]. right. by split_and!.
  - split_and!; [done|done|]. left. by split_and!.
Qed.

Lemma inv_wake ds k σ :
  NoDup (req_id <$> ds) → inv ds σ → inv ds (wake k σ).
Proof.
  intros Hnd Hinv.
  destruct (wake_core k σ)
    as [->|(id & f & mc & o & Hk & Ho & Hf & Hr & Hcase)]; [done|].
  destruct Hinv as [H1 H2 H3 H4 H5 H6 H7 H8].
  destruct (H2 _ _ _ _ Hk) as ((m & Hm & Hid) & Hreg & Hlt).
  destruct Hcase as [(Hnone & _)|(_ & Ht & Hc)]; [congruence|].
  assert (k < length (calls σ)) as Hkl by (by eapply lookup_lt_Some).
  assert (∀ k' c, <[k := Done o]> (calls σ) !! k' = Some c →
                  (k' = k ∧ c = Done o) ∨ (k' ≠ k ∧ calls σ !! k' = Some c))
    as Hsplit.
  { intros k' c [(-> & <- & _)|[Hne Hold]]%list_lookup_insert_Some;
      [by left|right]. split; [done|done]. }
  assert (∀ k' id' f' mc', k' ≠ k →
            calls σ !! k' = Some (Waiting id' f' mc') → id' ≠ id) as Hids.
  { intros k' id' f' mc' Hne Hk' Heq.
    destruct (H2 _ _ _ _ Hk') as ((m' & Hm' & Hid') & _).
    apply Hne. apply (NoDup_lookup (req_id <$> ds) k' k id Hnd).
    - rewrite list_lookup_fmap, Hm'. cbn. congruence.
    - rewrite list_lookup_fmap, Hm. cbn. congruence. }
  split; rewrite ?Ht, ?Hf, ?Hr, ?Hc.
  - by rewrite length_insert.
  - intros k' id' f' mc' [[_ ?]|[Hne Hk']]%Hsplit; [done|].
    destruct (H2 _ _ _ _ Hk') as (Hm' & Hreg' & Hlt').
    split_and!; [done| |done].
    rewrite lookup_delete_ne; [done|]. intros Heq.
    by eapply Hids.
  - intros id' f' [Hne Hreg']%lookup_delete_Some.
    destruct (H3 _ _ Hreg') as (k' & mc' & Hk'). exists k', mc'.
    rewrite list_lookup_insert_ne; [done|]. intros ->.
    rewrite Hk in Hk'. congruence.
  - intros k1 k2 id1 id2 f' mc1 mc2 [[_ ?]|[_ Hk1]]%Hsplit
      [[_ ?]|[_ Hk2]]%Hsplit; try done. eauto.
  - intros k' id' f' mc' r [[_ ?]|[_ Hk']]%Hsplit; [done|]. eauto.
  - intros k' id' f' mc' r [[_ ?]|[_ Hk']]%Hsplit; [done|]. eauto.
  - done.
  - intros k' r [[-> Heq]|[_ Hk']]%Hsplit; [|eauto].
    injection Heq as <-. exists m. split; [done|].
    destruct (futures σ !! f) as [s|] eqn:Hs; [|done]. cbn in Ho.
    unfold awaited in Ho. destruct mc; [done|].
    destruct s as [|r'| |]; try done. injection Ho as ->.
    rewrite Hid. eauto.
Qed.

(** Cancelling a call's task. *)
Lemma cancel_core k σ :
  cancel k σ = σ
  ∨ ∃ id f mc,
      calls σ !! k = Some (Waiting id f mc)
      ∧ _async_responses (cancel k σ) = _async_responses σ
      ∧ ready (cancel k σ) = ready σ
      ∧ ((futures σ !! f = Some FPending
          ∧ futures (cancel k σ) = <[f := FCancelled]> (futures σ)
          ∧ calls (cancel k σ) = calls σ)
         ∨ (futures σ !! f ≠ Some FPending
            ∧ futures (cancel k σ) = futures σ
            ∧ calls (cancel k σ) = <[k := Waiting id f true]> (calls σ))).
Proof.
  unfold cancel.
  destruct (calls σ !! k) as [[id f mc|o']|] eqn:Hk; [|by left|by left].
  right. exists id, f, mc. split; [done|].
  destruct (futures σ !! f) as [[| | |]|] eqn:Hf;
    (split_and!; [done|done|]); first [by left | by right].
Qed.

Lemma inv_cancel ds k σ : inv ds σ → inv ds (cancel k σ).
Proof.
  intros Hinv.
  destruct (cancel_core k σ)
    as [->|(id & f & mc & Hk & Ht & Hr & Hcase)]; [done|].
  destruct Hinv as [H1 H2 H3 H4 H5 H6 H7 H8].
  destruct Hcase as [(Hp & Hf & Hc)|(Hnp & Hf & Hc)].
  - split; rewrite ?Ht, ?Hf, ?Hr, ?Hc, ?length_insert; try done.
    intros k' id' f' mc' r Hk' Hfr.
    apply list_lookup_insert_Some in Hfr as [(_ & ? & _)|[_ Hold]];
      [done|eauto].
  - assert (∀ k' id' f' mc',
              <[k := Waiting id f true]> (calls σ) !! k'
                = Some (Waiting id' f' mc') →
              ∃ mc'', calls σ !! k' = Some (Waiting id' f' mc'')) as Hold.
    { intros k' id' f' mc' [(-> & Heq & _)|[_ Hk']]%list_lookup_insert_Some;
        [|by eexists].
      injection Heq as <- <- <-. by eexists. }
    assert (k < length (calls σ)) as Hkl by (by eapply lookup_lt_Some).
    split; rewrite ?Ht, ?Hf, ?Hr, ?Hc, ?length_insert; try done.
    + intros k' id' f' mc' [mc'' Hk']%Hold. eauto.
    + intros id' f' (k' & mc' & Hk')%H3.
      destruct (decide (k' = k)) as [->|Hne].
      * rewrite Hk in Hk'. injection Hk' as <- <- <-.
        exists k, true. by rewrite list_lookup_insert_eq.
      * exists k', mc'. by rewrite list_lookup_insert_ne.
    + intros k1 k2 id1 id2 f' mc1 mc2 [? Hk1]%Hold [? Hk2]%Hold. eauto.
    + intros k' id' f' mc' r [? Hk']%Hold. eauto.
    + intros k' id' f' mc' r [? Hk']%Hold. eauto.
    + intros k' r [(_ & ? & _)|[_ Hk']]%list_lookup_insert_Some; [done|eauto].
Qed.

(** Every event keeps the invariant, a [dispatch] provided its request
    carries an id not used before. *)
Lemma inv_step ds σ ev :
  NoDup (req_id <$> ds ++ dispatched [ev]) →
  inv ds σ → inv (ds ++ dispatched [ev]) (step σ ev).
Proof.
  intros Hnd Hinv. destruct ev as [m|x|t| |k|k| |]; cbn in *;
    rewrite ?app_nil_r in *.
  - apply inv_dispatch; [|done].
    rewrite fmap_app in Hnd. apply NoDup_app in Hnd as (_ & Hd & _).
    intros Hin. apply (Hd _ Hin). cbn. by left.
  - eapply inv_same_core; [apply arrive_core|done].
  - by apply inv__process_responses_step.
  - by apply inv_run_callback.
  - by apply inv_wake.
  - by apply inv_cancel.
  - eapply inv_same_core; [apply start_core|done].
  - eapply inv_same_core; [apply stop_core|done].
Qed.

Lemma dispatched_app evs1 evs2 :
  dispatched (evs1 ++ evs2) = dispatched evs1 ++ dispatched evs2.
Proof. apply omap_app. Qed.

Lemma run_app evs1 evs2 σ : run (evs1 ++ evs2) σ = run evs2 (run evs1 σ).
Proof. apply foldl_app. Qed.

(** The invariant holds after every schedule whose dispatched requests
    carry pairwise distinct ids. *)
Lemma inv_run ws q evs :
  NoDup (req_id <$> dispatched evs) →
  inv (dispatched evs) (run evs (__init__ ws q)).
Proof.
  induction evs as [|ev evs IH] using rev_ind; intros Hnd.
  - apply inv_init.
  - rewrite dispatched_app in *. rewrite run_app. cbn [run foldl].
    apply inv_step; [done|]. apply IH.
    rewrite fmap_app in Hnd. by apply NoDup_app in Hnd as (? & _).
Qed.

End Correlation.

(** * Abandoned calls *)

Section Abandon.
Import Dispatcher Props Examples.

(** [wake] spelled out for a call whose await completes and whose id is
    registered. *)
Lemma wake_ok k σ id f mc s o f' :
  calls σ !! k = Some (Waiting id f mc) →
  futures σ !! f = Some s → awaited mc s = Some o →
  _async_responses σ !! id = Some f' →
  wake k σ =
    set_calls (<[k := Done o]> (calls σ))
      (emit (Unregister id)
         (set_async_responses (delete id (_async_responses σ)) σ)).
Proof.
  intros Hk Hs Ho Ht. unfold wake. rewrite Hk, Hs. cbn. rewrite Ho.
  unfold _wait_response_resume, delitem. by rewrite Ht.
Qed.

(** [cancel] spelled out: a pending future is cancelled, otherwise the
    task is flagged. *)
Lemma cancel_pending k σ id f mc :
  calls σ !! k = Some (Waiting id f mc) →
  futures σ !! f = Some FPending →
  cancel k σ = set_futures (<[f := FCancelled]> (futures σ)) σ.
Proof. intros Hk Hs. unfold cancel. rewrite Hk. cbn. by rewrite Hs. Qed.

Lemma cancel_resolved k σ id f mc s :
  calls σ !! k = Some (Waiting id f mc) →
  futures σ !! f = Some s → s ≠ FPending →
  cancel k σ = set_calls (<[k := Waiting id f true]> (calls σ)) σ.
Proof.
  intros Hk Hs Hne. unfold cancel. rewrite Hk. cbn. rewrite Hs.
  by destruct s.
Qed.

(** C8: in every state the dispatcher can reach with requests of
    pairwise distinct ids, a call suspended in [dispatch] whose task is
    cancelled (whether or not a response has been scheduled for it) ends
    with [CancelledError] once it is resumed, and the [finally] clause
    has removed its entry from the pending-operation table: no entry is
    left behind, and no other entry is touched. *)
Theorem cancelled_call_unregistered (ws : workers) (q : Queue)
    (evs : list event) (k : nat) (id : string) (f : fut) (mc : bool) :
  NoDup (req_id <$> dispatched evs) →
  let σ := run evs (__init__ ws q) in
  calls σ !! k = Some (Waiting id f mc) →
  let σ' := wake k (cancel k σ) in
  _async_responses σ !! id = Some f
  ∧ calls σ' = <[k := Done Cancelled]> (calls σ)
  ∧ _async_responses σ' = delete id (_async_responses σ)
  ∧ _async_responses σ' !! id = None
  ∧ trace σ' = trace σ ++ [Unregister id].
Proof.
  intros Hnd σ Hk σ'.
  pose proof (inv_run ws q evs Hnd) as Hinv. fold σ in Hinv.
  destruct (inv_waiting _ _ Hinv _ _ _ _ Hk) as (_ & Hreg & Hlt).
  destruct (lookup_lt_is_Some_2 _ _ Hlt) as [s Hs].
  assert (k < length (calls σ)) as Hkl by (by eapply lookup_lt_Some).
  split; [done|].
  assert (∃ mc' s', calls (cancel k σ) !! k = Some (Waiting id f mc')
                    ∧ futures (cancel k σ) !! f = Some s'
                    ∧ awaited mc' s' = Some Cancelled
                    ∧ _async_responses (cancel k σ) = _async_responses σ
                    ∧ trace (cancel k σ) = trace σ
                    ∧ <[k := Done Cancelled]> (calls (cancel k σ))
                      = <[k := Done Cancelled]> (calls σ))
    as (mc' & s' & Hk' & Hs' & Haw & Ht & Htr & Hcs).
  { destruct (decide (s = FPending)) as [->|Hne].
    - rewrite (cancel_pending _ _ _ _ _ Hk Hs). cbn.
      exists mc, FCancelled. rewrite list_lookup_insert_eq by done.
      split_and!; try done. by destruct mc.
    - rewrite (cancel_resolved _ _ _ _ _ _ Hk Hs Hne). cbn.
      exists true, s. rewrite list_lookup_insert_eq by done.
      split_and!; try done. by rewrite list_insert_insert_eq. }
  rewrite <- Ht in Hreg.
  unfold σ'. rewrite (wake_ok _ _ _ _ _ _ _ _ Hk' Hs' Haw Hreg).
  cbn. rewrite Ht, Htr, Hcs. split_and!; try done.
  apply lookup_delete_eq.
Qed.

Lemma cancelled_call_unregistered_witness :
  calls two_waiting !! 0 = Some (Waiting "a" 0 false)
  ∧ _async_responses (wake 0 (cancel 0 two_waiting)) !! "a" = None
  ∧ calls (wake 0 (cancel 0 two_waiting))
    = [Done Cancelled; Waiting "b" 1 false].
Proof.
  assert (NoDup (req_id <$> dispatched
                   [EvStart; EvDispatch (rq "a"); EvDispatch (rq "b")]))
    as Hnd.
  { apply (bool_decide_unpack _). by vm_compute. }
  split; [reflexivity|].
  destruct (cancelled_call_unregistered ws3 q0 _ 0 "a" 0 false Hnd eq_refl)
    as (_ & Hc & _ & Hn & _).
  split; [exact Hn|exact Hc].
Defined.

End Abandon.

(** * The response loop and its supervision *)

Section Loop.
Import Dispatcher Props Examples.


(** A turn of the loop that fails ends the task; the callback logs the
    failure and starts a new loop. *)
Lemma _process_responses_step_crashes σ t x rest e :
  supervised σ t (x :: rest) →
  fault_of (_async_responses σ) x = Some e →
  _process_responses_step t σ
  = start (emit (LogCrash e)
             (set_tasks (<[t := Finished (Raised e)]> (tasks σ))
                (set_responses {| items := rest; closed := false |} σ))).
Proof.
  intros (_ & Ht & Ha & He & Hq) Hf.
  unfold _process_responses_step. rewrite Ht, Ha, He, Hq. cbn [negb closed items].
  destruct x as [r| |e']; cbn in Hf.
  - unfold _process_response. cbn [_async_responses set_responses].
    destruct (_async_responses σ !! resp_id r); [done|].
    by injection Hf as <-.
  - done.
  - by injection Hf as <-.
Qed.


Lemma omap_cons_match {A B} (f : A → option B) (x : A) (l : list A) :
  omap f (x :: l)
  = match f x with Some y => y :: omap f l | None => omap f l end.
Proof. done. Qed.


(** The claim that a response with an unknown id is dropped without an
    error fails: with calls ["a"] and ["b"] pending, a response for
    ["zz"] makes [_process_response] raise [KeyError], and the loop task
    that read it ends with that error. *)
Lemma unknown_id_not_dropped :
  let σ := run [EvArrive (Response (rs "zz"))] two_waiting in
  _async_responses σ !! "zz" = None
  ∧ (_process_response (rs "zz") σ).1 = Raise (KeyError "zz")
  ∧ tasks (_process_responses_step 0 σ) = [Finished (Raised (KeyError "zz")); Running]
  ∧ crashes (trace (_process_responses_step 0 σ)) = [KeyError "zz"].
Proof. vm_compute. done. Qed.

(** C2, amended: when the loop reads a response whose id has no entry
    in the pending-operation table, [_process_response] raises
    [KeyError] and changes nothing; the loop task ends with that error,
    the supervising callback logs it and starts a new loop.  The table,
    the futures, the scheduled callbacks and the suspended calls, so every
    other pending operation, are left as they were. *)
Theorem unknown_id_crashes_loop (σ : state) (t : nat)
    (r : ModelResponseMessage) (rest : list item) :
  supervised σ t (Response r :: rest) →
  _async_responses σ !! resp_id r = None →
  let e := KeyError (resp_id r) in
  let σ' := _process_responses_step t σ in
  _process_response r σ = (Raise e, σ)
  ∧ tasks σ' = <[t := Finished (Raised e)]> (tasks σ) ++ [Running]
  ∧ _process_responses_task σ' = Some (length (tasks σ))
  ∧ trace σ' = trace σ ++ [LogCrash e]
  ∧ _responses σ' = {| items := rest; closed := false |}
  ∧ same_core σ σ'.
Proof.
  intros Hsup Hnone e σ'.
  assert (fault_of (_async_responses σ) (Response r) = Some e) as Hfault.
  { cbn. by rewrite Hnone. }
  unfold σ'. rewrite (_process_responses_step_crashes _ _ _ _ _ Hsup Hfault). cbn.
  rewrite length_insert. split_and!; try done.
  unfold _process_response. by rewrite Hnone.
Qed.

Lemma unknown_id_crashes_loop_witness :
  supervised (run [EvArrive (Response (rs "zz"))] two_waiting) 0
    [Response (rs "zz")]
  ∧ tasks (_process_responses_step 0 (run [EvArrive (Response (rs "zz"))] two_waiting))
    = [Finished (Raised (KeyError "zz")); Running].
Proof.
  assert (supervised (run [EvArrive (Response (rs "zz"))] two_waiting) 0
            [Response (rs "zz")]) as Hsup.
  { by vm_compute. }
  split; [exact Hsup|].
  apply (unknown_id_crashes_loop _ 0 (rs "zz") [] Hsup). reflexivity.
Defined.


Lemma _process_responses_step_no_task σ t : tasks σ !! t = None → _process_responses_step t σ = σ.
Proof. intros Ht. unfold _process_responses_step. by rewrite Ht. Qed.




End Loop.

(** * Resolution of futures and error propagation *)

Section Resolution.
Import Dispatcher Props Examples.


















Lemma crashes_app tr1 tr2 :
  crashes (tr1 ++ tr2) = crashes tr1 ++ crashes tr2.
Proof. apply omap_app. Qed.


(** An error payload that tests false is not seen as one by
    [_process_response]: the response is handed to [set_result] and the
    call returns it. *)
Lemma falsy_payload_returned :
  calls (wake 1 (run_callback (_process_response (rsf "b") two_waiting).2))
  = [Waiting "a" 0 false; Done (Returned (rsf "b"))].
Proof. by vm_compute. Qed.



End Resolution.

(** * The life of a pending operation *)

Section Lifecycle.
Import Dispatcher Props Examples.

(** The claim that the future is registered before the request is
    submitted fails: [dispatch] sends the request to the worker first.
    When the request is in the worker's channel the table has no entry
    for its id yet. *)
Lemma dispatch_sends_before_registering :
  let m := rq "r0" in
  let σ0 := __init__ ws3 q0 in
  trace (dispatch m σ0)
  = [ObserveQueue 10 0; Send 10 m; ObserveTasks; Register "r0" 0]
  ∧ ¬ registered_before_sent (trace (dispatch m σ0)) m
  ∧ workers_get (_workers (dispatch_submit m σ0).2) 10
    = Some {| _requests := [m] |}
  ∧ _async_responses (dispatch_submit m σ0).2 !! "r0" = None.
Proof.
  cbn zeta. split; [by vm_compute|]. split; [|by vm_compute].
  intros (i & j & f & pid & Hlt & Hi & Hj).
  assert (trace (dispatch (rq "r0") (__init__ ws3 q0))
          = [ObserveQueue 10 0; Send 10 (rq "r0"); ObserveTasks;
             Register "r0" 0]) as Htr by (by vm_compute).
  rewrite Htr in Hi, Hj.
  destruct i as [|[|[|[|i]]]]; try done.
  destruct j as [|[|[|[|j]]]]; try done; lia.
Qed.

(** Events other than [dispatch] leave the workers and the round robin
    alone. *)
Lemma step_workers σ ev :
  (∀ m, ev ≠ EvDispatch m) →
  _workers (step σ ev) = _workers σ
  ∧ _workers_round_robin (step σ ev) = _workers_round_robin σ.
Proof.
  intros Hev. destruct ev as [m|x|t| |k|k| |]; cbn [step].
  - by destruct (Hev m).
  - unfold arrive. by destruct (put _ _).
  - unfold _process_responses_step, finish, _process_response.
    repeat case_match; by simplify_eq.
  - unfold run_callback, resolve. repeat case_match; by simplify_eq.
  - unfold wake, _wait_response_resume, delitem.
    repeat case_match; by simplify_eq.
  - unfold cancel. repeat case_match; by simplify_eq.
  - done.
  - unfold stop, stop_shutdown, stop_terminate, cancel_task, finish.
    repeat case_match; by simplify_eq.
Qed.

(** In every reachable state the round robin is where the number of
    [dispatch] calls made so far puts it. *)
Lemma run_round_robin ws q evs :
  0 < length ws →
  let σ := run evs (__init__ ws q) in
  keys (_workers σ) = keys ws
  ∧ cycle_at (keys ws) (length (dispatched evs)) (_workers_round_robin σ).
Proof.
  intros Hn. induction evs as [|ev evs IH] using rev_ind.
  - split; [done|apply cycle_new_at].
  - cbn zeta in *. rewrite run_app, dispatched_app. cbn [run foldl].
    destruct IH as [Hk Hc].
    set (σ := run evs (__init__ ws q)) in *.
    assert (0 < length (keys ws)) as Hn'.
    { unfold keys. by rewrite length_fmap. }
    assert ((∃ m, ev = EvDispatch m) ∨ (∀ m, ev ≠ EvDispatch m))
      as [[m ->]|Hnd].
    { destruct ev; first [left; by eexists | by right]. }
    + cbn [step]. 
      destruct (cycle_next_at _ _ _ Hn' Hc) as (pid & c' & Hnext & Hpid & Hc').
      assert (pid ∈ keys (_workers σ)) as Hin.
      { rewrite Hk. by eapply list_elem_of_lookup_2. }
      destruct (workers_get_keys _ _ Hin) as [w Hw].
      rewrite (dispatch_ok _ _ _ _ _ Hnext Hw).
      cbn [_workers _workers_round_robin].
      rewrite workers_update_keys. split; [done|].
      cbn. rewrite length_app. cbn. by rewrite Nat.add_1_r.
    + destruct (step_workers σ ev Hnd) as [-> ->].
      split; [done|].
      assert (dispatched [ev] = []) as ->.
      { destruct ev as [m| | | | | | |]; try done. by destruct (Hnd m). }
      by rewrite app_nil_r.
Qed.

(** A future that holds a result, an exception or a cancellation keeps
    it: no event resolves it a second time. *)
Lemma step_future_stable σ ev f s :
  futures σ !! f = Some s → s ≠ FPending →
  futures (step σ ev) !! f = Some s.
Proof.
  intros Hs Hne.
  assert (∀ σ', same_core σ σ' → futures σ' !! f = Some s) as Hsame.
  { intros σ' (_ & -> & _). done. }
  destruct ev as [m|x|t| |k|k| |]; cbn [step].
  - destruct (dispatch_core m σ) as [(e & _ & -> & _)|(_ & -> & _)];
      [done|]. by apply lookup_app_l_Some.
  - apply Hsame, arrive_core.
  - destruct (_process_responses_step_core t σ) as [Hc|(r & f' & _ & _ & -> & _)];
      [by apply Hsame|done].
  - destruct (run_callback_core σ)
      as [Hc|(cb & cbs & _ & _ & _ & _ & [->|[Hp ->]])];
      [by apply Hsame|done|].
    rewrite list_lookup_insert_ne; [done|]. intros Heq.
    rewrite Heq in Hp. congruence.
  - destruct (wake_core k σ) as [->|(? & ? & ? & ? & _ & _ & -> & _)]; done.
  - destruct (cancel_core k σ)
      as [->|(id & f' & mc & _ & _ & _ & [(Hp & -> & _)|(_ & -> & _)])];
      [done| |done].
    rewrite list_lookup_insert_ne; [done|]. intros Heq.
    rewrite Heq in Hp. congruence.
  - apply Hsame, start_core.
  - apply Hsame, stop_core.
Qed.

(** [dispatch_submit] spelled out, for a round robin that yields [pid]. *)
Lemma dispatch_submit_ok (m : ModelRequestMessage) (σ : state) pid c w :
  cycle_next (_workers_round_robin σ) = Some (pid, c) →
  workers_get (_workers σ) pid = Some w →
  dispatch_submit m σ
  = (Ok (),
     emit (Send pid m)
       (set_workers
          (workers_update (_workers σ) pid (λ w, send_request w m))
          (_workers_queue_monitor w pid (set_round_robin c σ)))).
Proof.
  intros Hnext Hget. unfold dispatch_submit, _get_worker.
  rewrite Hnext. cbn. by rewrite Hget.
Qed.

(** C7, amended: in every state the dispatcher reaches with at least one
    worker and requests of pairwise distinct ids, a [dispatch] call
    submits the request to the selected worker first, while the table has
    no entry for its id, and creates and registers the future right after
    (only the metric observation lies between), before it suspends; the
    entry is removed in the very step in which the suspended call is
    resumed and consumes the outcome of its future.  The table holds the
    entries of the suspended calls and nothing else, and a future that
    has been resolved keeps its state under every event. *)
Theorem pending_operation_lifecycle (ws : workers) (q : Queue)
    (evs : list event) (m : ModelRequestMessage) :
  0 < length ws →
  NoDup (req_id <$> dispatched (evs ++ [EvDispatch m])) →
  let σ := run evs (__init__ ws q) in
  let f := length (futures σ) in
  let σs := (dispatch_submit m σ).2 in
  let σ' := dispatch m σ in
  ((dispatch_submit m σ).1 = Ok ()
   ∧ (∃ pid, sent (trace σs) = sent (trace σ) ++ [(pid, m)])
   ∧ _async_responses σs !! req_id m = None)
  ∧ ((∃ pid n, trace σ' = trace σ ++ [ObserveQueue pid n; Send pid m;
                                      ObserveTasks; Register (req_id m) f])
     ∧ _async_responses σ' = <[req_id m := f]> (_async_responses σ)
     ∧ futures σ' = futures σ ++ [FPending]
     ∧ calls σ' = calls σ ++ [Waiting (req_id m) f false])
  ∧ (∀ id f', _async_responses σ !! id = Some f'
              ↔ ∃ k mc, calls σ !! k = Some (Waiting id f' mc))
  ∧ (∀ k id f' mc o,
       calls σ !! k = Some (Waiting id f' mc) →
       futures σ !! f' ≫= awaited mc = Some o →
       calls (wake k σ) = <[k := Done o]> (calls σ)
       ∧ _async_responses (wake k σ) = delete id (_async_responses σ)
       ∧ trace (wake k σ) = trace σ ++ [Unregister id])
  ∧ (∀ ev f' s, futures σ !! f' = Some s → s ≠ FPending →
                futures (step σ ev) !! f' = Some s).
Proof.
  intros Hn Hnd σ f σs σ'.
  rewrite dispatched_app, fmap_app in Hnd. cbn in Hnd.
  apply NoDup_app in Hnd as (Hnd & Hfresh & _).
  pose proof (inv_run ws q evs Hnd) as Hinv. fold σ in Hinv.
  destruct (run_round_robin ws q evs Hn) as [Hk Hc]. fold σ in Hk, Hc.
  assert (0 < length (keys ws)) as Hn'.
  { unfold keys. by rewrite length_fmap. }
  destruct (cycle_next_at _ _ _ Hn' Hc) as (pid & c' & Hnext & Hpid & Hc').
  assert (pid ∈ keys (_workers σ)) as Hin.
  { rewrite Hk. by eapply list_elem_of_lookup_2. }
  destruct (workers_get_keys _ _ Hin) as [w Hw].
  split; [|split; [|split; [|split]]].
  - unfold σs. rewrite (dispatch_submit_ok _ _ _ _ _ Hnext Hw).
    cbn [fst snd]. split; [done|]. split.
    + exists pid. cbn. by rewrite !sent_app, app_nil_r.
    + cbn. destruct (_async_responses σ !! req_id m) as [f0|] eqn:Hreg;
        [|done].
      destruct (inv_table _ _ Hinv _ _ Hreg) as (k & mc & Hcall).
      destruct (inv_waiting _ _ Hinv _ _ _ _ Hcall)
        as ((m' & Hm' & Hid) & _).
      exfalso. apply (Hfresh (req_id m)).
      * rewrite <- Hid. apply list_elem_of_fmap_2.
        by eapply list_elem_of_lookup_2.
      * by left.
  - unfold σ'. rewrite (dispatch_ok _ _ _ _ _ Hnext Hw). cbn.
    split; [by eexists _, _|done].
  - intros id f'. split.
    + apply (inv_table _ _ Hinv).
    + intros (k & mc & Hcall).
      by destruct (inv_waiting _ _ Hinv _ _ _ _ Hcall) as (_ & ? & _).
  - intros k id f' mc o Hcall Ho.
    destruct (inv_waiting _ _ Hinv _ _ _ _ Hcall) as (_ & Hreg & _).
    destruct (futures σ !! f') as [s|] eqn:Hs; [|done]. cbn in Ho.
    rewrite (wake_ok _ _ _ _ _ _ _ _ Hcall Hs Ho Hreg). by cbn.
  - intros ev f' s. apply step_future_stable.
Qed.

Lemma pending_operation_lifecycle_witness :
  0 < length ws3
  ∧ calls (dispatch (rq "c") two_waiting)
    = [Waiting "a" 0 false; Waiting "b" 1 false; Waiting "c" 2 false]
  ∧ _async_responses (dispatch_submit (rq "c") two_waiting).2 !! "c" = None.
Proof.
  assert (0 < length ws3) as Hn by (cbn; lia).
  assert (NoDup (req_id <$> dispatched
                   ([EvStart; EvDispatch (rq "a"); EvDispatch (rq "b")]
                    ++ [EvDispatch (rq "c")]))) as Hnd.
  { apply (bool_decide_unpack _). by vm_compute. }
  split; [exact Hn|].
  destruct (pending_operation_lifecycle ws3 q0 _ (rq "c") Hn Hnd)
    as ((_ & _ & Hnone) & (_ & _ & _ & Hcalls) & _).
  split; [exact Hcalls|exact Hnone].
Defined.

End Lifecycle.

(** * Correlation of concurrent calls *)

Section Batch.
Import Dispatcher Props Examples.

Lemma dispatched_dispatch reqs : dispatched (EvDispatch <$> reqs) = reqs.
Proof. induction reqs as [|m reqs IH]; [done|]. cbn. by f_equal. Qed.

Lemma dispatched_none evs :
  (∀ ev, ev ∈ evs → ∀ m, ev ≠ EvDispatch m) → dispatched evs = [].
Proof.
  induction evs as [|ev evs IH]; intros Hall; [done|].
  unfold dispatched in *. rewrite omap_cons_match, IH.
  - destruct ev as [m| | | | | | |]; try done.
    by destruct (Hall (EvDispatch m) ltac:(by left) m).
  - intros ev' Hin. apply Hall. by right.
Qed.

Lemma dispatched_batch reqs resps order :
  dispatched (batch reqs resps order) = reqs.
Proof.
  unfold batch. rewrite !dispatched_app. cbn.
  rewrite dispatched_dispatch.
  rewrite !dispatched_none; [by rewrite !app_nil_r| | | |].
  - intros ev (k & -> & _)%list_elem_of_fmap m. done.
  - intros ev [-> _]%elem_of_replicate m. done.
  - intros ev [-> _]%elem_of_replicate m. done.
  - intros ev (x & -> & _)%list_elem_of_fmap m. done.
Qed.









(** No two ids are registered with the same future. *)
Lemma table_injective ds σ id1 id2 f :
  inv ds σ →
  _async_responses σ !! id1 = Some f → _async_responses σ !! id2 = Some f →
  id1 = id2.
Proof.
  intros Hinv (k1 & mc1 & H1)%(inv_table _ _ Hinv)
    (k2 & mc2 & H2)%(inv_table _ _ Hinv).
  assert (k1 = k2) as -> by (by eapply (inv_fut_inj _ _ Hinv)).
  congruence.
Qed.


Lemma target_callback_for f r : target (callback_for f r) = f.
Proof. unfold callback_for. by destruct (carried_error r). Qed.








(** The scenarios of the specification: the response for ["r0"] with a
    success payload is what [dispatch] returns; an error payload is
    raised. *)
Example scenario_result_and_error :
  calls (run (batch [rq "r0"; rq "r1"] [rse "r1"; rs "r0"] [0; 1])
           (__init__ ws3 q0))
  = [Done (Returned (rs "r0")); Done (Raised (OtherError "divide by zero"))].
Proof. by vm_compute. Qed.

End Batch.

(** * More on the codec registry *)

Section RegistryLaws.
Import Codecs.

(** Registering a codec and looking it up again, on any registry and in
    any store: the lookup returns the codec just registered, lookups of
    other content types answer as before, and no other dictionary
    changes.  The same holds for request codecs. *)
Theorem register_then_find (self : _CodecRegistry) (s : store)
    (ct ct' : string) (c : codec) :
  let s1 := (register_input_codec self ct c s).2 in
  let s2 := (register_request_codec self ct c s).2 in
  ((register_input_codec self ct c s).1 = Ok ()
   ∧ find_input_codec self ct s1 = (Ok c, s1)
   ∧ (ct' ≠ ct →
      (find_input_codec self ct' s1).1 = (find_input_codec self ct' s).1)
   ∧ (∀ l, l ≠ _input_codecs self → s1 !! l = s !! l))
  ∧ ((register_request_codec self ct c s).1 = Ok ()
     ∧ find_request_codec self ct s2 = (Ok c, s2)
     ∧ (ct' ≠ ct →
        (find_request_codec self ct' s2).1 = (find_request_codec self ct' s).1)
     ∧ (∀ l, l ≠ _request_codecs self → s2 !! l = s !! l)).
Proof.
  cbn zeta.
  unfold register_input_codec, register_request_codec, find_input_codec,
    find_request_codec, setitem, getitem. cbn [fst snd].
  split; (split; [done|]); (split; [|split]).
  - by rewrite lookup_total_insert_eq, lookup_insert_eq.
  - intros Hne. rewrite lookup_total_insert_eq, lookup_insert_ne by done.
    by destruct ((s !!! _input_codecs self : dict) !! ct').
  - intros l Hl. by rewrite lookup_insert_ne.
  - by rewrite lookup_total_insert_eq, lookup_insert_eq.
  - intros Hne. rewrite lookup_total_insert_eq, lookup_insert_ne by done.
    by destruct ((s !!! _request_codecs self : dict) !! ct').
  - intros l Hl. by rewrite lookup_insert_ne.
Qed.

(** On a registry whose two dictionaries are different objects, input
    and request codecs do not mix: registering the one kind never changes
    what a lookup of the other kind returns. *)
Theorem input_request_independent (self : _CodecRegistry) (s : store)
    (ct ct' : string) (c : codec) :
  _input_codecs self ≠ _request_codecs self →
  (find_request_codec self ct' (register_input_codec self ct c s).2).1
  = (find_request_codec self ct' s).1
  ∧ (find_input_codec self ct' (register_request_codec self ct c s).2).1
    = (find_input_codec self ct' s).1.
Proof.
  intros Hne.
  unfold register_input_codec, register_request_codec, find_input_codec,
    find_request_codec, setitem, getitem. cbn [fst snd].
  rewrite !lookup_total_insert_ne by done.
  split.
  - by destruct ((s !!! _request_codecs self : dict) !! ct').
  - by destruct ((s !!! _input_codecs self : dict) !! ct').
Qed.

Lemma input_request_independent_witness :
  (find_request_codec _codec_registry "np"
     (register_input_codec _codec_registry "np" 7 class_store).2).1
  = (find_request_codec _codec_registry "np" class_store).1.
Proof.
  apply (input_request_independent _codec_registry class_store "np" "np" 7).
  done.
Defined.

(** A registry built over one and the same dictionary for both roles
    keeps no such separation: what is registered as an input codec is
    found as a request codec, and the other way round. *)
Theorem one_dict_for_both (l : loc) (s : store) (ct : string) (c : codec) :
  let self := __init__ (Some l) (Some l) in
  (find_request_codec self ct (register_input_codec self ct c s).2).1 = Ok c
  ∧ (find_input_codec self ct (register_request_codec self ct c s).2).1
    = Ok c.
Proof.
  cbn zeta.
  unfold register_input_codec, register_request_codec, find_input_codec,
    find_request_codec, setitem, getitem. cbn.
  by rewrite !lookup_total_insert_eq, !lookup_insert_eq.
Qed.

(** Registrations compose as dictionary updates do: a second
    registration of a content type replaces the first without a trace (so
    registering the same codec twice is the same as once), and
    registrations of different content types commute. *)
Theorem registrations_compose (self : _CodecRegistry) (s : store)
    (ct1 ct2 : string) (c1 c2 : codec) :
  (register_input_codec self ct1 c2 (register_input_codec self ct1 c1 s).2).2
  = (register_input_codec self ct1 c2 s).2
  ∧ (ct1 ≠ ct2 →
     (register_input_codec self ct2 c2
        (register_input_codec self ct1 c1 s).2).2
     = (register_input_codec self ct1 c1
          (register_input_codec self ct2 c2 s).2).2)
  ∧ (register_request_codec self ct1 c2
       (register_request_codec self ct1 c1 s).2).2
    = (register_request_codec self ct1 c2 s).2
  ∧ (ct1 ≠ ct2 →
     (register_request_codec self ct2 c2
        (register_request_codec self ct1 c1 s).2).2
     = (register_request_codec self ct1 c1
          (register_request_codec self ct2 c2 s).2).2).
Proof.
  unfold register_input_codec, register_request_codec, setitem.
  cbn [fst snd].
  rewrite !lookup_total_insert_eq, !insert_insert_eq.
  split_and!; try done.
  - intros Hne. f_equal. by apply insert_insert_ne.
  - intros Hne. f_equal. by apply insert_insert_ne.
Qed.

(** A registry that is given a dictionary of its own for input codecs
    only: its input codecs are separate from the module registry's, in
    both directions, but it still shares the default dictionary of
    request codecs with it. *)
Theorem own_input_dict_only (s s1 : store) (l : loc) (ct : string)
    (c : codec) :
  default_input_codecs ∈ dom s →
  new_dict s = (Ok l, s1) →
  let custom := __init__ (Some l) None in
  (find_input_codec custom ct
     (register_input_codec _codec_registry ct c s1).2).1
  = Raise (KeyError ct)
  ∧ (find_input_codec _codec_registry ct
       (register_input_codec custom ct c s1).2).1
    = (find_input_codec _codec_registry ct s).1
  ∧ (find_request_codec custom ct
       (register_request_codec _codec_registry ct c s1).2).1
    = Ok c.
Proof.
  intros Hd Hnew custom. unfold new_dict in Hnew.
  injection Hnew as <- <-.
  assert (fresh (dom s) ≠ default_input_codecs) as Hne.
  { intros Heq. apply (is_fresh (dom s)). by rewrite Heq. }
  unfold custom, register_input_codec, register_request_codec,
    find_input_codec, find_request_codec, setitem, getitem.
  cbn -[default_input_codecs default_request_codecs].
  split_and!.
  - rewrite lookup_total_insert_ne by done.
    by rewrite lookup_total_insert_eq.
  - rewrite lookup_total_insert_ne by done.
    rewrite (lookup_total_insert_ne s) by done.
    by destruct ((s !!! default_input_codecs : dict) !! ct).
  - by rewrite !lookup_total_insert_eq, lookup_insert_eq.
Qed.

Lemma own_input_dict_only_witness :
  default_input_codecs ∈ dom class_store
  ∧ (find_request_codec (__init__ (Some 2) None) "np"
       (register_request_codec _codec_registry "np" 7
          (new_dict class_store).2).2).1
    = Ok 7.
Proof.
  assert (default_input_codecs ∈ dom class_store) as Hd.
  { unfold class_store. rewrite !dom_insert. set_solver. }
  split; [exact Hd|].
  assert (new_dict class_store = (Ok 2, (new_dict class_store).2)) as Hnew.
  { by vm_compute. }
  destruct (own_input_dict_only class_store _ 2 "np" 7 Hd Hnew)
    as (_ & _ & H).
  exact H.
Defined.

End RegistryLaws.

Section DecoratorLaws.
Import Codecs Decorators.

(** The registering decorators hand back the class they were given, so
    the decorated name still denotes the class; what the registry then
    finds under the content type is a new object of that class, one that
    did not exist before.  Decorating one class under two content types
    registers two different objects. *)
Theorem decorator_registers_new_instance (w : world) (ct ct2 : string)
    (K : Klass) :
  let '(K1, w1) := register_input_codec ct K w in
  let found := (find_input_codec _codec_registry ct (dicts w1)).1 in
  let '(K2, w2) := register_input_codec ct2 K w1 in
  let found2 := (find_input_codec _codec_registry ct2 (dicts w2)).1 in
  K1 = K ∧ K2 = K
  ∧ found = Ok (length (objects w))
  ∧ class_of w1 found = Some K
  ∧ class_of w found = None
  ∧ class_of w2 found2 = Some K
  ∧ found2 ≠ found
  ∧ (ct2 ≠ ct →
     (find_input_codec _codec_registry ct (dicts w2)).1 = found).
Proof.
  unfold register_input_codec, instantiate, Codecs.register_input_codec,
    find_input_codec, setitem, getitem, class_of.
  cbn -[default_input_codecs].
  rewrite !lookup_total_insert_eq, !lookup_insert_eq.
  rewrite length_app. cbn [length].
  split_and!; try done; cbn [fst].
  - rewrite lookup_app_r by lia. by rewrite Nat.sub_diag.
  - apply lookup_ge_None. lia.
  - rewrite lookup_app_r; rewrite length_app; cbn [length]; [|lia].
    by rewrite Nat.sub_diag.
  - intros [= Heq]. lia.
  - intros Hne. rewrite lookup_insert_ne by done.
    by rewrite lookup_insert_eq.
Qed.

(** One class decorated with both decorators under one content type is
    instantiated twice: the module's registry finds an object of the class
    as input codec and another object of the class as request codec, and
    the request decorator hands back the class. *)
Theorem both_decorators_two_instances (w : world) (ct : string)
    (K : Klass) :
  let '(K1, w1) := register_input_codec ct K w in
  let '(K2, w2) := register_request_codec ct K w1 in
  let fi := (find_input_codec _codec_registry ct (dicts w2)).1 in
  let fr := (find_request_codec _codec_registry ct (dicts w2)).1 in
  K2 = K
  ∧ class_of w2 fi = Some K ∧ class_of w2 fr = Some K
  ∧ class_of w fr = None
  ∧ fi ≠ fr.
Proof.
  unfold register_input_codec, register_request_codec, instantiate,
    Codecs.register_input_codec, Codecs.register_request_codec,
    find_input_codec, find_request_codec, setitem, getitem, class_of.
  cbn -[default_input_codecs default_request_codecs].
  assert (default_request_codecs ≠ default_input_codecs) as Hne by done.
  rewrite !lookup_total_insert_eq.
  rewrite (lookup_total_insert_ne _ _ _ _ Hne).
  rewrite !lookup_total_insert_eq, !lookup_insert_eq.
  rewrite !length_app. cbn [length fst].
  split_and!; try done.
  - rewrite <- (assoc_L (++)). rewrite lookup_app_r by lia.
    by rewrite Nat.sub_diag.
  - rewrite lookup_app_r; rewrite length_app; cbn [length]; [|lia].
    by rewrite Nat.sub_diag.
  - apply lookup_ge_None. lia.
  - intros [= Heq]. lia.
Qed.

End DecoratorLaws.

(** * More on the loop tasks *)

Section LoopTasks.
Import Dispatcher Props Examples Supervision.

Lemma crashes_emit e σ :
  crashes (trace (emit e σ))
  = crashes (trace σ) ++ match e with LogCrash x => [x] | _ => [] end.
Proof. cbn. rewrite crashes_app. by destruct e. Qed.

Lemma finish_change t o σ :
  tasks σ !! t = Some Running → loop_change σ (finish t o σ).
Proof.
  intros Ht.
  assert (t < length (tasks σ)) as Hlt by (by eapply lookup_lt_Some).
  destruct o as [[]|e|].
  - by apply (loop_ended _ _ t (Returned ())).
  - apply (loop_restarted _ _ t e); cbn; try done.
    + by rewrite length_insert.
    + rewrite crashes_app. done.
  - by apply (loop_ended _ _ t Cancelled).
Qed.

Lemma loop_change_from σ0 σ σ' :
  tasks σ = tasks σ0 → _active σ = _active σ0 →
  _process_responses_task σ = _process_responses_task σ0 →
  crashes (trace σ) = crashes (trace σ0) →
  loop_change σ σ' → loop_change σ0 σ'.
Proof.
  intros Ht Ha Hp Hc [H1 H2 H3 H4|t o H0 Hne H1 H2 H3 H4
                      |t e H0 H1 H2 H3 H4];
    rewrite ?Ht, ?Ha, ?Hp, ?Hc in *.
  - by apply loop_unchanged.
  - by apply (loop_ended _ _ t o).
  - by apply (loop_restarted _ _ t e).
Qed.

Lemma dispatch_change m σ : loop_change σ (dispatch m σ).
Proof.
  unfold dispatch, dispatch_submit, _get_worker, _wait_response_enter,
    dispatch_register.
  repeat case_match; simplify_eq; apply loop_unchanged; cbn; try done;
    rewrite ?crashes_app; cbn; by rewrite ?app_nil_r.
Qed.

Lemma _process_responses_step_change t σ :
  loop_change σ (_process_responses_step t σ).
Proof.
  unfold _process_responses_step.
  destruct (tasks σ !! t) as [[|o]|] eqn:Ht; try by apply loop_unchanged.
  destruct (_active σ) eqn:Ha; cbn [negb]; [|by apply finish_change].
  destruct (_executor_shutdown σ); [by apply finish_change|].
  destruct (closed (_responses σ)); [by apply finish_change|].
  destruct (items (_responses σ)) as [|[r| |e] rest];
    [by apply loop_unchanged| | |].
  - destruct (_process_response_cases r
                (set_responses {| items := rest; closed := false |} σ))
      as [[_ ->]|(f & _ & ->)].
    + apply (loop_change_from σ
               (set_responses {| items := rest; closed := false |} σ));
      try done.
      by apply finish_change.
    + by apply loop_unchanged.
  - apply (loop_change_from σ
               (set_responses {| items := rest; closed := false |} σ));
      try done.
    by apply finish_change.
  - apply (loop_change_from σ
               (set_responses {| items := rest; closed := false |} σ));
      try done.
    by apply finish_change.
Qed.

Lemma run_callback_change σ : loop_change σ (run_callback σ).
Proof.
  unfold run_callback, resolve.
  repeat case_match; simplify_eq; apply loop_unchanged; cbn; try done;
    rewrite ?crashes_app; cbn; by rewrite ?app_nil_r.
Qed.

Lemma wake_change k σ : loop_change σ (wake k σ).
Proof.
  unfold wake, _wait_response_resume, delitem.
  repeat case_match; simplify_eq; apply loop_unchanged; cbn; try done;
    rewrite ?crashes_app; cbn; by rewrite ?app_nil_r.
Qed.

Lemma cancel_change k σ : loop_change σ (cancel k σ).
Proof.
  unfold cancel. repeat case_match; simplify_eq; by apply loop_unchanged.
Qed.

Lemma stop_shutdown_change σ : loop_change σ (stop_shutdown σ).2.
Proof.
  unfold stop_shutdown.
  cbn [_process_responses_task set_executor_shutdown set_responses].
  destruct (_process_responses_task σ) as [t|]; cbn [snd];
    [|by apply loop_unchanged].
  unfold cancel_task. cbn [tasks set_executor_shutdown set_responses].
  destruct (tasks σ !! t) as [[|[[]|e|]]|] eqn:Ht; cbn [snd];
    try by apply loop_unchanged.
  apply (loop_change_from σ
           (set_executor_shutdown true
              (set_responses (close (_responses σ)) σ))); try done.
  by apply finish_change.
Qed.

Lemma stop_change σ : loop_change σ (stop σ).2.
Proof.
  unfold stop. apply (loop_change_from σ (stop_terminate σ)); try done.
  apply stop_shutdown_change.
Qed.

(** Every event other than [start] changes the loop tasks in one of
    the three ways. *)
Lemma step_change σ ev : ev ≠ EvStart → loop_change σ (step σ ev).
Proof.
  intros Hev. destruct ev as [m|x|t| |k|k| |]; cbn [step]; [| | | | | |done|].
  - apply dispatch_change.
  - unfold arrive. destruct (put _ _); by apply loop_unchanged.
  - apply _process_responses_step_change.
  - apply run_callback_change.
  - apply wake_change.
  - apply cancel_change.
  - apply stop_change.
Qed.

Lemma starts_app evs1 evs2 : starts (evs1 ++ evs2) = starts evs1 + starts evs2.
Proof. unfold starts. by rewrite omap_app, length_app. Qed.

Lemma starts_other ev : ev ≠ EvStart → starts [ev] = 0.
Proof. by destruct ev. Qed.

(** Loop tasks are created by [start] and by the restart after a crash,
    and by nothing else: after any schedule there are as many loop tasks
    as there were calls of [start] and logged crashes together.  The task
    the dispatcher refers to is always the one created last. *)
Theorem one_loop_per_start_or_crash (ws : workers) (q : Queue)
    (evs : list event) :
  let σ := run evs (__init__ ws q) in
  length (tasks σ) = starts evs + length (crashes (trace σ))
  ∧ match _process_responses_task σ with
    | Some t => S t = length (tasks σ)
    | None => tasks σ = []
    end.
Proof.
  induction evs as [|ev evs IH] using rev_ind; [done|].
  cbn zeta in *. rewrite run_app, starts_app. cbn [run foldl].
  set (σ := run evs (__init__ ws q)) in *.
  destruct IH as [Hlen Href].
  destruct (decide (ev = EvStart)) as [->|Hev].
  - cbn [step]. change (starts [EvStart]) with 1.
    assert (tasks (start σ) = tasks σ ++ [Running]) as -> by done.
    assert (trace (start σ) = trace σ) as -> by done.
    assert (_process_responses_task (start σ) = Some (length (tasks σ)))
      as -> by done.
    rewrite length_app. cbn [length]. split; lia.
  - rewrite (starts_other _ Hev).
    destruct (step_change σ ev Hev)
      as [H1 H2 H3 H4|t o H0 Hne H1 H2 H3 H4|t e H0 H1 H2 H3 H4];
      rewrite H1, H3, H4.
    + split; [lia|done].
    + rewrite length_insert. split; [lia|].
      destruct (_process_responses_task σ) as [t'|]; [done|].
      by rewrite Href in H0.
    + rewrite !length_app, length_insert. cbn. split; lia.
Qed.

(** Nothing ever clears [_active]: in every reachable state a running
    loop task finds the flag set, so the [while] test never ends the
    loop; a turn of a running task returns normally only when it reads
    [END_OF_QUEUE] from the open channel. *)
Theorem running_loop_returns_only_on_sentinel (ws : workers) (q : Queue)
    (evs : list event) (t : nat) :
  let σ := run evs (__init__ ws q) in
  tasks σ !! t = Some Running →
  _active σ = true
  ∧ (tasks (_process_responses_step t σ) !! t
       = Some (Finished (Returned ())) →
     ∃ rest, _responses σ
             = {| items := END_OF_QUEUE :: rest; closed := false |}).
Proof.
  intros σ Ht.
  assert (tasks σ = [] ∨ _active σ = true) as Hact.
  { clear Ht t. unfold σ. clear σ.
    induction evs as [|ev evs IH] using rev_ind; [by left|].
    rewrite run_app. cbn [run foldl].
    set (σ := run evs (__init__ ws q)) in *.
    destruct (decide (ev = EvStart)) as [->|Hev]; [by right|].
    destruct (step_change σ ev Hev)
      as [H1 H2 H3 H4|t o H0 Hne H1 H2 H3 H4|t e H0 H1 H2 H3 H4];
      rewrite ?H1, ?H2; [done| |by right].
    right. destruct IH as [Hnil|Ha]; [|done].
    by rewrite Hnil in H0. }
  assert (_active σ = true) as Ha.
  { destruct Hact as [Hnil|Ha]; [|done]. by rewrite Hnil in Ht. }
  split; [done|].
  assert (t < length (tasks σ)) as Hlt by (by eapply lookup_lt_Some).
  unfold _process_responses_step. rewrite Ht, Ha. cbn [negb].
  destruct (_executor_shutdown σ).
  { cbn. rewrite lookup_app_l by (by rewrite length_insert).
    by rewrite list_lookup_insert_eq. }
  destruct (_responses σ) as [xs cl] eqn:Hq. cbn [closed items].
  destruct cl.
  { cbn. rewrite lookup_app_l by (by rewrite length_insert).
    by rewrite list_lookup_insert_eq. }
  destruct xs as [|[r| |e] rest].
  - by rewrite Ht.
  - destruct (_process_response_cases r
                (set_responses {| items := rest; closed := false |} σ))
      as [[_ ->]|(f & _ & ->)]; cbn.
    + rewrite lookup_app_l by (by rewrite length_insert).
      by rewrite list_lookup_insert_eq.
    + by rewrite Ht.
  - intros _. by exists rest.
  - cbn. rewrite lookup_app_l by (by rewrite length_insert).
    by rewrite list_lookup_insert_eq.
Qed.

Lemma running_loop_returns_only_on_sentinel_witness :
  tasks (run [EvStart; EvArrive END_OF_QUEUE] (__init__ ws3 q0)) !! 0
  = Some Running
  ∧ _active (run [EvStart; EvArrive END_OF_QUEUE] (__init__ ws3 q0)) = true.
Proof.
  assert (tasks (run [EvStart; EvArrive END_OF_QUEUE] (__init__ ws3 q0)) !! 0
          = Some Running) as Ht by (by vm_compute).
  split; [exact Ht|].
  destruct (running_loop_returns_only_on_sentinel ws3 q0
              [EvStart; EvArrive END_OF_QUEUE] 0 Ht) as [Ha _].
  exact Ha.
Defined.

(** A dispatcher that is started once has at most one running loop task
    at any time, the one it refers to: a restart happens only when the
    running task has ended. *)
Theorem started_once_one_loop (ws : workers) (q : Queue) (evs : list event)
    (t : nat) :
  EvStart ∉ evs →
  let σ := run evs (start (__init__ ws q)) in
  tasks σ !! t = Some Running → _process_responses_task σ = Some t.
Proof.
  intros Hno σ. unfold σ. clear σ. revert t.
  induction evs as [|ev evs IH] using rev_ind; intros t.
  - cbn. by destruct t as [|[|t]].
  - rewrite run_app. cbn [run foldl].
    assert (EvStart ∉ evs) as Hno'.
    { intros Hin. apply Hno, elem_of_app. by left. }
    assert (ev ≠ EvStart) as Hev.
    { intros ->. apply Hno, elem_of_app. right. by left. }
    specialize (IH Hno').
    set (σ := run evs (start (__init__ ws q))) in *.
    destruct (step_change σ ev Hev)
      as [H1 H2 H3 H4|t' o H0 Hne H1 H2 H3 H4|t' e H0 H1 H2 H3 H4];
      rewrite H1, H3.
    + apply IH.
    + intros [(_ & ? & _)|[_ Hold]]%list_lookup_insert_Some; [done|].
      by apply IH.
    + assert (t' < length (tasks σ)) as Hlt by (by eapply lookup_lt_Some).
      intros [Hold|[Hge Hnew]]%lookup_app_Some.
      * apply list_lookup_insert_Some in Hold
          as [(_ & ? & _)|[Hne Hold]]; [done|].
        pose proof (IH _ Hold) as Ht. pose proof (IH _ H0) as Ht'.
        congruence.
      * rewrite length_insert in Hge, Hnew.
        apply list_lookup_singleton_Some in Hnew as [Hz _].
        f_equal. lia.
Qed.

Lemma started_once_one_loop_witness :
  (EvStart ∉ [EvArrive (Response (rs "zz")); EvLoop 0])
  ∧ _process_responses_task
      (run [EvArrive (Response (rs "zz")); EvLoop 0] (start (__init__ ws3 q0)))
    = Some 1.
Proof.
  assert (EvStart ∉ [EvArrive (Response (rs "zz")); EvLoop 0]) as Hno.
  { intros Hin. by repeat (apply elem_of_cons in Hin as [?|Hin]; [done|]);
                  apply elem_of_nil in Hin. }
  split; [exact Hno|].
  assert (tasks (run [EvArrive (Response (rs "zz")); EvLoop 0]
                   (start (__init__ ws3 q0))) !! 1 = Some Running) as Ht.
  { by vm_compute. }
  exact (started_once_one_loop ws3 q0 _ 1 Hno Ht).
Defined.

(** Events other than [stop] neither close nor reopen the channel. *)
Lemma step_closed σ ev :
  ev ≠ EvStop → closed (_responses (step σ ev)) = closed (_responses σ).
Proof.
  intros Hev. destruct ev as [m|x|t| |k|k| |]; cbn [step]; [| | | | | | |done].
  - unfold dispatch, dispatch_submit, _get_worker, _wait_response_enter,
      dispatch_register.
    repeat case_match; by simplify_eq.
  - unfold arrive, put. by destruct (closed (_responses σ)) eqn:Hc.
  - unfold _process_responses_step, finish, _process_response.
    repeat case_match; by simplify_eq.
  - unfold run_callback, resolve. repeat case_match; by simplify_eq.
  - unfold wake, _wait_response_resume, delitem.
    repeat case_match; by simplify_eq.
  - unfold cancel. repeat case_match; by simplify_eq.
  - done.
Qed.

(** [stop] on a dispatcher that was never started (and not stopped
    before): the guard on [_process_responses_task] skips the
    cancellation, so [stop] returns normally; it has pushed the sentinel,
    closed the channel and shut the executor down, and there is still no
    loop task.  Calls and table are left as they were. *)
Theorem stop_without_start (ws : workers) (q : Queue) (evs : list event) :
  closed q = false → EvStart ∉ evs → EvStop ∉ evs →
  let σ := run evs (__init__ ws q) in
  _process_responses_task σ = None
  ∧ stop σ
    = (Ok (),
       set_executor_shutdown true
         (set_responses
            {| items := items (_responses σ) ++ [END_OF_QUEUE];
               closed := true |} σ)).
Proof.
  intros Hq Hstart Hstop σ.
  assert (tasks σ = [] ∧ _process_responses_task σ = None
          ∧ closed (_responses σ) = false) as (Hnil & Href & Hcl).
  { unfold σ. clear σ.
    induction evs as [|ev evs IH] using rev_ind; [done|].
    rewrite run_app. cbn [run foldl].
    assert (ev ≠ EvStart) as Hev1.
    { intros ->. apply Hstart, elem_of_app. right. by left. }
    assert (ev ≠ EvStop) as Hev2.
    { intros ->. apply Hstop, elem_of_app. right. by left. }
    destruct IH as (Hnil & Href & Hcl).
    { intros Hin. apply Hstart, elem_of_app. by left. }
    { intros Hin. apply Hstop, elem_of_app. by left. }
    set (σ := run evs (__init__ ws q)) in *.
    rewrite (step_closed _ _ Hev2).
    destruct (step_change σ ev Hev1)
      as [H1 H2 H3 H4|t o H0 Hne H1 H2 H3 H4|t e H0 H1 H2 H3 H4].
    - by rewrite H1, H3.
    - by rewrite Hnil in H0.
    - by rewrite Hnil in H0. }
  split; [done|].
  unfold stop, stop_shutdown, stop_terminate, terminate_queue, put.
  rewrite Hcl.
  cbn [_process_responses_task set_executor_shutdown set_responses].
  by rewrite Href.
Qed.

Lemma stop_without_start_witness :
  closed q0 = false
  ∧ (stop (run [EvDispatch (rq "a")] (__init__ ws3 q0))).1 = Ok ().
Proof.
  assert (EvStart ∉ [EvDispatch (rq "a")]) as H1.
  { intros Hin. by repeat (apply elem_of_cons in Hin as [?|Hin]; [done|]);
                  apply elem_of_nil in Hin. }
  assert (EvStop ∉ [EvDispatch (rq "a")]) as H2.
  { intros Hin. by repeat (apply elem_of_cons in Hin as [?|Hin]; [done|]);
                  apply elem_of_nil in Hin. }
  split; [reflexivity|].
  destruct (stop_without_start ws3 q0 [EvDispatch (rq "a")] eq_refl H1 H2)
    as [_ Hs].
  exact (f_equal fst Hs).
Defined.

(** After a [stop] that returned, [start] does not bring the dispatcher
    back: the executor stays shut down, so every turn of the new loop
    fails before it reads the channel, is logged and is answered by yet
    another loop.  Nothing is ever read or resolved again. *)
Theorem start_after_stop_only_crashes (σ : state) (n : nat) :
  (stop σ).1 = Ok () →
  let σ1 := start (stop σ).2 in
  let σn := turns n σ1 in
  crashes (trace σn)
  = crashes (trace σ1) ++ replicate n executor_shutdown_error
  ∧ length (tasks σn) = length (tasks σ1) + n
  ∧ _responses σn = _responses σ1
  ∧ same_core σ1 σn.
Proof.
  intros Hok σ1 σn.
  assert (_executor_shutdown (stop σ).2 = true) as Hsh.
  { unfold stop, stop_shutdown, stop_terminate.
    cbn [_process_responses_task set_executor_shutdown set_responses].
    destruct (_process_responses_task σ) as [t|]; [|done].
    unfold cancel_task. cbn [tasks set_executor_shutdown set_responses].
    destruct (tasks σ !! t) as [[|[[]|e|]]|]; done. }
  assert (∀ n σ0,
            _executor_shutdown σ0 = true → _active σ0 = true →
            (∃ t, _process_responses_task σ0 = Some t
                  ∧ tasks σ0 !! t = Some Running) →
            crashes (trace (turns n σ0))
            = crashes (trace σ0) ++ replicate n executor_shutdown_error
            ∧ length (tasks (turns n σ0)) = length (tasks σ0) + n
            ∧ _responses (turns n σ0) = _responses σ0
            ∧ same_core σ0 (turns n σ0)) as Hgen.
  { clear. induction n as [|n IH]; intros σ0 Hsh Ha (t & Href & Ht).
    - cbn. rewrite app_nil_r.
      split_and!; first [done | lia | apply same_core_refl].
    - cbn [turns].
      assert (t < length (tasks σ0)) as Hlt by (by eapply lookup_lt_Some).
      assert (loop_turn σ0
              = start (emit (LogCrash executor_shutdown_error)
                         (set_tasks
                            (<[t := Finished (Raised executor_shutdown_error)]>
                               (tasks σ0)) σ0))) as ->.
      { unfold loop_turn. rewrite Href. unfold _process_responses_step.
        by rewrite Ht, Ha, Hsh. }
      set (σ' := start _).
      destruct (IH σ') as (Hc & Hl & Hr & Hs); try done.
      { exists (length (tasks σ0)). unfold σ'. cbn. rewrite length_insert.
        split; [done|].
        rewrite lookup_app_r; rewrite length_insert; [|lia].
        by rewrite Nat.sub_diag. }
      rewrite Hc, Hl, Hr. unfold σ'. cbn.
      rewrite crashes_app, length_app, length_insert. cbn.
      rewrite <- (assoc_L (++)).
      split_and!; first [done | lia]. }
  apply Hgen; try done.
  exists (length (tasks (stop σ).2)). cbn. split; [done|].
  rewrite lookup_app_r by lia. by rewrite Nat.sub_diag.
Qed.

Lemma start_after_stop_only_crashes_witness :
  (stop (start (__init__ ws3 q0))).1 = Ok ()
  ∧ length (tasks (turns 3 (start (stop (start (__init__ ws3 q0))).2))) = 5.
Proof.
  split; [reflexivity|].
  destruct (start_after_stop_only_crashes (start (__init__ ws3 q0)) 3 eq_refl)
    as (_ & Hl & _).
  exact Hl.
Defined.









End LoopTasks.

(** * Shutdown *)

Section Shutdown.
Import Dispatcher Props Examples Supervision.

(** [stop] on a dispatcher whose loop is running, with nothing else run
    in between: the sentinel is pushed, the channel closed, the executor
    shut down and the loop task cancelled. *)
Lemma stop_running σ t xs :
  supervised σ t xs →
  stop σ
  = (Ok (),
     set_tasks (<[t := Finished Cancelled]> (tasks σ))
       (set_executor_shutdown true
          (set_responses
             {| items := xs ++ [END_OF_QUEUE]; closed := true |} σ))).
Proof.
  intros (Hcur & Ht & Ha & He & Hq).
  unfold stop, stop_shutdown, stop_terminate, terminate_queue, put.
  rewrite Hq. cbn [closed items].
  cbn [_process_responses_task set_executor_shutdown set_responses].
  rewrite Hcur. unfold cancel_task.
  cbn [tasks set_executor_shutdown set_responses]. rewrite Ht.
  reflexivity.
Qed.

(** With one loop there is one loop after every event other than
    [start]: a crash replaces the running task by a new one. *)
Lemma single_loop_step σ ev :
  ev ≠ EvStart → single_loop σ → single_loop (step σ ev).
Proof.
  intros Hev [Hone (r & Hr & Hcase)].
  destruct (step_change σ ev Hev)
    as [H1 H2 H3 H4|t o H0 Hne H1 H2 H3 H4|t e H0 H1 H2 H3 H4];
    unfold single_loop; rewrite H1, H3.
  - split; [done|]. by exists r.
  - assert (t < length (tasks σ)) as Hlt by (by eapply lookup_lt_Some).
    assert (r = t) as ->.
    { pose proof (Hone _ H0) as Ht. congruence. }
    split.
    + intros t' [(_ & ? & _)|[_ Hold]]%list_lookup_insert_Some; [done|].
      by apply Hone.
    + exists t. split; [done|]. right.
      rewrite list_lookup_insert_eq by done.
      destruct o as [[]|e|]; [by left|by destruct (Hne e)|by right].
  - assert (t < length (tasks σ)) as Hlt by (by eapply lookup_lt_Some).
    split.
    + intros t' [Hold|[Hge Hnew]]%lookup_app_Some.
      * apply list_lookup_insert_Some in Hold
          as [(_ & ? & _)|[Hne Hold]]; [done|].
        pose proof (Hone _ Hold) as Ht'. pose proof (Hone _ H0) as Ht.
        congruence.
      * rewrite length_insert in Hge, Hnew.
        apply list_lookup_singleton_Some in Hnew as [Hz _].
        f_equal. lia.
    + exists (length (tasks σ)). split; [done|]. left.
      rewrite lookup_app_r; rewrite length_insert; [|lia].
      by rewrite Nat.sub_diag.
Qed.

Lemma single_loop_run evs : ∀ σ,
  EvStart ∉ evs → single_loop σ → single_loop (run evs σ).
Proof.
  induction evs as [|ev evs IH]; intros σ Hno Hs; [done|].
  cbn [run foldl]. apply IH.
  - intros Hin. apply Hno. by right.
  - apply single_loop_step; [|done]. intros ->. apply Hno. by left.
Qed.

(** The second part of [stop] on a dispatcher with one loop: it returns
    normally whether the loop is still running or has returned already,
    and leaves no loop running. *)
Lemma stop_shutdown_single σ :
  single_loop σ →
  (stop_shutdown σ).1 = Ok () ∧ shut_down (stop_shutdown σ).2.
Proof.
  intros [Hone (r & Hr & Hcase)].
  unfold stop_shutdown.
  cbn [_process_responses_task set_executor_shutdown set_responses].
  rewrite Hr. unfold cancel_task.
  cbn [tasks set_executor_shutdown set_responses].
  assert (∀ t, tasks σ !! t = Some Running → t = r) as Honly.
  { intros t Ht. pose proof (Hone _ Ht). congruence. }
  destruct Hcase as [H|[H|H]]; rewrite H; cbn [fst snd];
    (split; [done|]); unfold shut_down; cbn.
  - assert (r < length (tasks σ)) as Hlt by (by eapply lookup_lt_Some).
    split_and!; try done.
    + intros t [(_ & ? & _)|[Hne Hold]]%list_lookup_insert_Some; [done|].
      by apply Hne, eq_sym, Honly.
    + exists r. split; [done|]. right. by rewrite list_lookup_insert_eq.
  - split_and!; try done.
    + intros t Ht. rewrite (Honly _ Ht) in Ht. congruence.
    + exists r. split; [done|]. by left.
  - split_and!; try done.
    + intros t Ht. rewrite (Honly _ Ht) in Ht. congruence.
    + exists r. split; [done|]. by right.
Qed.

(** Nothing reopens the channel. *)
Lemma step_closed_true σ ev :
  closed (_responses σ) = true → closed (_responses (step σ ev)) = true.
Proof.
  intros Hcl. destruct (decide (ev = EvStop)) as [->|Hev];
    [|by rewrite step_closed].
  cbn [step]. unfold stop, stop_shutdown, stop_terminate.
  cbn [_process_responses_task set_executor_shutdown set_responses].
  destruct (_process_responses_task σ) as [t|]; [|done].
  unfold cancel_task. cbn [tasks set_executor_shutdown set_responses].
  by destruct (tasks σ !! t) as [[|[[]|e|]]|].
Qed.

(** Nothing brings the executor back. *)
Lemma step_shutdown_true σ ev :
  _executor_shutdown σ = true → _executor_shutdown (step σ ev) = true.
Proof.
  intros Hsh.
  assert (∀ σ', _executor_shutdown σ' = _executor_shutdown σ →
                _executor_shutdown σ' = true) as Hsame by congruence.
  destruct ev as [m|x|t| |k|k| |]; cbn [step].
  - apply Hsame.
    unfold dispatch, dispatch_submit, _get_worker, _wait_response_enter,
      dispatch_register.
    repeat case_match; by simplify_eq.
  - apply Hsame. unfold arrive. by destruct (put _ _).
  - apply Hsame. unfold _process_responses_step, finish, _process_response.
    repeat case_match; by simplify_eq.
  - apply Hsame. unfold run_callback, resolve.
    repeat case_match; by simplify_eq.
  - apply Hsame. unfold wake, _wait_response_resume, delitem.
    repeat case_match; by simplify_eq.
  - apply Hsame. unfold cancel. repeat case_match; by simplify_eq.
  - done.
  - unfold stop, stop_shutdown, stop_terminate.
    cbn [_process_responses_task set_executor_shutdown set_responses].
    destruct (_process_responses_task σ) as [t|]; [|done].
    unfold cancel_task. cbn [tasks set_executor_shutdown set_responses].
    by destruct (tasks σ !! t) as [[|[[]|e|]]|].
Qed.

(** A dispatcher that has been shut down stays so under every event
    other than [start], and its loop tasks are left as they are. *)
Lemma shut_down_step σ ev :
  ev ≠ EvStart → shut_down σ →
  shut_down (step σ ev)
  ∧ tasks (step σ ev) = tasks σ
  ∧ crashes (trace (step σ ev)) = crashes (trace σ).
Proof.
  intros Hev (Hnr & Hcl & Hsh & Href).
  destruct (step_change σ ev Hev)
    as [H1 H2 H3 H4|t o H0 Hne H1 H2 H3 H4|t e H0 H1 H2 H3 H4];
    [|by destruct (Hnr t)|by destruct (Hnr t)].
  split; [|done]. unfold shut_down. rewrite H1, H3.
  split_and!; [done| | |done].
  - by apply step_closed_true.
  - by apply step_shutdown_true.
Qed.

Lemma shut_down_run evs : ∀ σ,
  EvStart ∉ evs → shut_down σ →
  shut_down (run evs σ)
  ∧ tasks (run evs σ) = tasks σ
  ∧ crashes (trace (run evs σ)) = crashes (trace σ).
Proof.
  induction evs as [|ev evs IH]; intros σ Hno Hs; [done|].
  cbn [run foldl].
  assert (ev ≠ EvStart) as Hev.
  { intros ->. apply Hno. by left. }
  destruct (shut_down_step σ ev Hev Hs) as (Hs1 & Ht1 & Hc1).
  destruct (IH (step σ ev)) as (Hs2 & Ht2 & Hc2); [|done|].
  { intros Hin. apply Hno. by right. }
  unfold run in *. split_and!; [done|congruence|congruence].
Qed.

(** On a dispatcher that has been shut down a turn of any loop task
    does nothing, nothing can be put on the channel, and [stop] returns
    normally and changes nothing. *)
Lemma shut_down_quiet σ :
  shut_down σ →
  (∀ t, _process_responses_step t σ = σ)
  ∧ (∀ x, arrive x σ = σ)
  ∧ stop σ = (Ok (), σ).
Proof.
  intros (Hnr & Hcl & Hsh & (r & Hr & Hcase)). split_and!.
  - intros t. unfold _process_responses_step.
    destruct (tasks σ !! t) as [[|o]|] eqn:Ht; [|done|done].
    by destruct (Hnr t).
  - intros x. unfold arrive, put. by rewrite Hcl.
  - unfold stop, stop_shutdown, stop_terminate, terminate_queue, put.
    rewrite Hcl.
    cbn [_process_responses_task set_executor_shutdown set_responses].
    rewrite Hr. unfold cancel_task.
    cbn [tasks set_executor_shutdown set_responses].
    assert (close (_responses σ) = _responses σ) as Hq.
    { destruct (_responses σ) as [xs cl]. cbn in Hcl. by subst cl. }
    destruct Hcase as [H|H]; rewrite H; f_equal;
      apply state_eq; cbn; done.
Qed.

(** The claim that the loop has read the sentinel when [stop] has
    completed fails: on a dispatcher that was started and has nothing
    else to run, [stop] pushes the sentinel, closes the channel, shuts
    the executor down and cancels the loop task.  When it returns the
    loop task has ended by the cancellation, and the sentinel is on the
    closed channel, unread. *)
Lemma stop_cancels_unread_sentinel :
  let σ := start (__init__ ws3 q0) in
  tasks σ = [Running]
  ∧ (stop σ).1 = Ok ()
  ∧ tasks (stop σ).2 = [Finished Cancelled]
  ∧ tasks (stop σ).2 ≠ [Finished (Returned ())]
  ∧ _responses (stop σ).2 = {| items := [END_OF_QUEUE]; closed := true |}
  ∧ trace (stop σ).2 = [].
Proof. vm_compute. by split_and!. Qed.

(** C6, amended: [stop] on a dispatcher with one loop, the loop running
    and [xs] on the open channel.  [stop] pushes the sentinel behind
    [xs]; whatever the event loop runs while the helper is awaited
    ([evs]), the rest of [stop] returns normally, and from then on,
    whatever runs while [stop] waits for the task and after it has
    returned ([evs'], [start] apart): the loop task the dispatcher refers
    to has ended, by its return or by the cancellation, no loop task is
    running and none is added; the channel is closed and the executor
    shut down; a turn of any loop task and a put on the channel change
    nothing, so no further response is processed; and a second [stop]
    returns normally and changes nothing.  With nothing run in between
    the loop is ended by the cancellation and the sentinel stays on the
    channel; a loop that takes its turn on the sentinel returns and is
    not restarted. *)
Theorem stop_ends_loop (σ : state) (t : nat) (xs : list item)
    (evs evs' : list event) :
  supervised σ t xs →
  (∀ t', tasks σ !! t' = Some Running → t' = t) →
  EvStart ∉ evs → EvStart ∉ evs' →
  let σ1 := stop_terminate σ in
  let σ2 := run evs σ1 in
  let σ3 := (stop_shutdown σ2).2 in
  let σ' := run evs' σ3 in
  _responses σ1 = {| items := xs ++ [END_OF_QUEUE]; closed := false |}
  ∧ (stop_shutdown σ2).1 = Ok ()
  ∧ (∃ tl, _process_responses_task σ' = Some tl
           ∧ (tasks σ' !! tl = Some (Finished (Returned ()))
              ∨ tasks σ' !! tl = Some (Finished Cancelled)))
  ∧ (∀ t', tasks σ' !! t' ≠ Some Running)
  ∧ (tasks σ' = tasks σ3 ∧ crashes (trace σ') = crashes (trace σ3))
  ∧ (closed (_responses σ') = true ∧ _executor_shutdown σ' = true)
  ∧ ((∀ t', _process_responses_step t' σ' = σ') ∧ (∀ x, arrive x σ' = σ'))
  ∧ stop σ' = (Ok (), σ')
  ∧ (evs = [] →
     stop σ = (Ok (), σ3)
     ∧ tasks σ3 = <[t := Finished Cancelled]> (tasks σ)
     ∧ _responses σ3 = {| items := xs ++ [END_OF_QUEUE]; closed := true |}
     ∧ trace σ3 = trace σ
     ∧ same_core σ σ3)
  ∧ (∀ rest, xs = END_OF_QUEUE :: rest →
       tasks (_process_responses_step t σ)
       = <[t := Finished (Returned ())]> (tasks σ)
       ∧ trace (_process_responses_step t σ) = trace σ).
Proof.
  intros Hsup Hone Hno Hno' σ1 σ2 σ3 σ'.
  pose proof Hsup as (Hcur & Ht & Ha & He & Hq).
  assert (_responses σ1
          = {| items := xs ++ [END_OF_QUEUE]; closed := false |}) as Hq1.
  { unfold σ1, stop_terminate, terminate_queue, put. cbn [_responses set_responses].
    by rewrite Hq. }
  assert (single_loop σ1) as Hs1.
  { split.
    - intros t' Hr. change (tasks σ !! t' = Some Running) in Hr.
      change (_process_responses_task σ = Some t').
      by rewrite (Hone _ Hr).
    - exists t. split; [done|]. by left. }
  assert (single_loop σ2) as Hs2 by (by apply single_loop_run).
  destruct (stop_shutdown_single σ2 Hs2) as [Hok Hsd].
  fold σ3 in Hsd.
  destruct (shut_down_run evs' σ3 Hno' Hsd) as (Hsd' & Htasks & Hcr).
  fold σ' in Hsd', Htasks, Hcr.
  destruct (shut_down_quiet σ' Hsd') as (Hturn & Hput & Hstop).
  destruct Hsd' as (Hnr & Hcl & Hsh & (tl & Htl & Hcase)).
  split; [done|]. split; [done|]. split; [by exists tl|].
  split; [done|]. split; [done|]. split; [done|]. split; [done|].
  split; [done|]. split.
  - intros Hevs.
    assert (stop σ = (Ok (), σ3)) as Hσ3.
    { unfold σ3, σ2, σ1. rewrite Hevs. cbn [run foldl].
      change (stop_shutdown (stop_terminate σ)) with (stop σ).
      by rewrite (stop_running _ _ _ Hsup). }
    split; [done|].
    rewrite (stop_running _ _ _ Hsup) in Hσ3. injection Hσ3 as <-.
    by split_and!.
  - intros rest ->. unfold _process_responses_step. rewrite Ht, Ha, He, Hq.
    cbn. done.
Qed.

Lemma stop_ends_loop_witness :
  supervised three_arrived 0
    [Response (rse "b"); Response (rs "zz"); Response (rs "a")]
  ∧ (stop_shutdown (run [EvLoop 0] (stop_terminate three_arrived))).1 = Ok ()
  ∧ ∀ t', tasks (run [EvArrive (Response (rs "late")); EvLoop 0]
                  (stop_shutdown
                     (run [EvLoop 0] (stop_terminate three_arrived))).2)
            !! t' ≠ Some Running.
Proof.
  assert (supervised three_arrived 0
            [Response (rse "b"); Response (rs "zz"); Response (rs "a")])
    as Hsup by (by vm_compute).
  assert (∀ t', tasks three_arrived !! t' = Some Running → t' = 0)
    as Hone.
  { intros [|t']; [done|]. vm_compute. by destruct t'. }
  assert (EvStart ∉ [EvLoop 0]) as Hno.
  { intros Hin. by repeat (apply elem_of_cons in Hin as [?|Hin]; [done|]);
                  apply elem_of_nil in Hin. }
  assert (EvStart ∉ [EvArrive (Response (rs "late")); EvLoop 0]) as Hno'.
  { intros Hin. by repeat (apply elem_of_cons in Hin as [?|Hin]; [done|]);
                  apply elem_of_nil in Hin. }
  split; [exact Hsup|].
  destruct (stop_ends_loop three_arrived 0 _ [EvLoop 0]
              [EvArrive (Response (rs "late")); EvLoop 0]
              Hsup Hone Hno Hno') as (_ & Hok & _ & Hnr & _).
  split; [exact Hok|exact Hnr].
Defined.

End Shutdown.

(** * More on [dispatch] and the resolution of futures *)

Section DispatchEdges.
Import Dispatcher Props Examples Orphans Routing.

(** A dispatcher built over no worker: every [dispatch] call fails at
    once, [next] on the empty round robin raising [StopIteration], which
    leaves the coroutine as a [RuntimeError].  Nothing is sent, no future
    is created and nothing is registered. *)
Theorem dispatch_without_workers (q : Queue)
    (reqs : list ModelRequestMessage) :
  run (EvDispatch <$> reqs) (__init__ [] q)
  = set_calls
      (replicate (length reqs)
         (Done (Raised (RuntimeError "coroutine raised StopIteration"))))
      (__init__ [] q).
Proof.
  induction reqs as [|m reqs IH] using rev_ind.
  - by apply state_eq.
  - rewrite fmap_app, run_app, IH. cbn [fmap list_fmap run foldl step].
    rewrite dispatch_no_worker by done.
    apply state_eq; try done.
    cbn. rewrite length_app. cbn [length].
    by rewrite replicate_add.
Qed.

(** An id that no request dispatched so far carries is not in the
    table. *)
Lemma fresh_id_unregistered ds σ id :
  inv ds σ → id ∉ req_id <$> ds → _async_responses σ !! id = None.
Proof.
  intros Hinv Hfresh.
  destruct (_async_responses σ !! id) as [f|] eqn:Hreg; [|done].
  destruct (inv_table _ _ Hinv _ _ Hreg) as (k & mc & Hcall).
  destruct (inv_waiting _ _ Hinv _ _ _ _ Hcall) as ((m & Hm & Hid) & _).
  exfalso. apply Hfresh. rewrite <- Hid. apply list_elem_of_fmap_2.
  by eapply list_elem_of_lookup_2.
Qed.

(** An orphaned call stays orphaned, whatever happens. *)
Lemma orphaned_step k id f σ ev :
  orphaned k id f σ → orphaned k id f (step σ ev).
Proof.
  intros (Hlt & Htab & Hrdy & Hfut & Hcall).
  assert (k < length (calls σ)) as Hkl.
  { destruct Hcall as [[mc H]|[H|H]]; by eapply lookup_lt_Some. }
  assert (∀ σ', same_core σ σ' → orphaned k id f σ') as Hsame.
  { intros σ' (Ht & Hf & Hr & Hc). unfold orphaned.
    by rewrite Ht, Hf, Hr, Hc. }
  assert (∀ cs : list call,
            (∀ c, calls σ !! k = Some c → cs !! k = Some c) →
            (∃ mc, cs !! k = Some (Waiting id f mc))
            ∨ cs !! k = Some (Done Cancelled)
            ∨ cs !! k = Some (Done (Raised (KeyError id)))) as Hkeep.
  { intros cs Hcs. destruct Hcall as [[mc H]|[H|H]].
    - left. exists mc. by apply Hcs.
    - right. left. by apply Hcs.
    - right. right. by apply Hcs. }
  destruct ev as [m|x|t| |k'|k'| |]; cbn [step].
  - destruct (dispatch_core m σ)
      as [(e & Ht & Hf & Hr & Hc)|(Ht & Hf & Hr & Hc)];
      unfold orphaned; rewrite Ht, Hf, Hr, Hc.
    + split_and!; try done. apply Hkeep. intros c Hc'.
      by apply lookup_app_l_Some.
    + rewrite length_app. split_and!; [lia| |done| |].
      * intros id' [[_ Heq]|[_ Hold]]%lookup_insert_Some; [lia|].
        by eapply Htab.
      * rewrite lookup_app_l by done. done.
      * apply Hkeep. intros c Hc'. by apply lookup_app_l_Some.
  - apply Hsame, arrive_core.
  - destruct (_process_responses_step_core t σ)
      as [Hc|(r & f' & Hreg & Ht & Hf & Hr & Hc)]; [by apply Hsame|].
    unfold orphaned. rewrite Ht, Hf, Hr, Hc. split_and!; try done.
    intros cb [Hin|Hin%list_elem_of_singleton]%elem_of_app; [eauto|].
    subst cb. rewrite target_callback_for. intros ->. by eapply Htab.
  - destruct (run_callback_core σ)
      as [Hc|(cb & cbs & Hrd & Ht & Hc & Hr & Hf)]; [by apply Hsame|].
    assert (target cb ≠ f) as Hcb.
    { apply Hrdy. rewrite Hrd. by left. }
    unfold orphaned. rewrite Ht, Hc, Hr.
    assert (∀ cb', cb' ∈ cbs → target cb' ≠ f) as Hrdy'.
    { intros cb' Hin. apply Hrdy. rewrite Hrd. by right. }
    destruct Hf as [->|[_ ->]]; [done|].
    rewrite length_insert, list_lookup_insert_ne by done. done.
  - destruct (wake_core k' σ)
      as [->|(id' & f' & mc' & o & Hk' & Ho & Hf & Hr & Hcase)]; [done|].
    assert (k' = k → (∃ mc, calls σ !! k = Some (Waiting id f mc))
                     ∧ id' = id ∧ f' = f ∧ o = Cancelled) as Hk.
    { intros ->. destruct Hcall as [[mc H]|[H|H]]; [|congruence|congruence].
      rewrite Hk' in H. injection H as -> -> ->.
      split; [by eexists|]. split; [done|]. split; [done|].
      destruct Hfut as [Hp|Hp]; rewrite Hp in Ho; destruct mc;
        cbn in Ho; congruence. }
    unfold orphaned. rewrite Hf, Hr.
    destruct Hcase as [(_ & -> & ->)|(_ & -> & ->)].
    + split_and!; try done.
      destruct (decide (k' = k)) as [Heq|Hne].
      * destruct (Hk Heq) as (_ & -> & _). subst k'.
        right. right. by rewrite list_lookup_insert_eq.
      * rewrite list_lookup_insert_ne by done. done.
    + split_and!; try done.
      * intros id'' [_ Hold]%lookup_delete_Some. by eapply Htab.
      * destruct (decide (k' = k)) as [Heq|Hne].
        -- destruct (Hk Heq) as (_ & _ & _ & ->). subst k'.
           right. left. by rewrite list_lookup_insert_eq.
        -- rewrite list_lookup_insert_ne by done. done.
  - destruct (cancel_core k' σ)
      as [->|(id' & f' & mc' & Hk' & Ht & Hr & Hcase)]; [done|].
    unfold orphaned. rewrite Ht, Hr.
    destruct Hcase as [(Hp & -> & ->)|(_ & -> & ->)].
    + rewrite length_insert. split_and!; try done.
      destruct (decide (f' = f)) as [->|Hne].
      * right. by rewrite list_lookup_insert_eq.
      * by rewrite list_lookup_insert_ne.
    + split_and!; try done.
      destruct (decide (k' = k)) as [->|Hne].
      * destruct Hcall as [[mc H]|[H|H]]; [|congruence|congruence].
        rewrite Hk' in H. injection H as -> -> ->.
        left. exists true. by rewrite list_lookup_insert_eq.
      * rewrite list_lookup_insert_ne by done. done.
  - apply Hsame, start_core.
  - apply Hsame, stop_core.
Qed.

Lemma orphaned_run k id f evs : ∀ σ,
  orphaned k id f σ → orphaned k id f (run evs σ).
Proof.
  induction evs as [|ev evs IH]; intros σ Ho; [done|].
  cbn [run foldl]. apply IH. by apply orphaned_step.
Qed.

(** Why ids must be distinct: if a request is dispatched under the id of
    a call that is still suspended on a pending future, the table entry is
    overwritten with the new future.  From then on, whatever happens, no
    response reaches the first call: its future is never resolved, and the
    call stays suspended or ends by cancellation (or with the [KeyError]
    of its own [finally] clause); it never returns a response. *)
Theorem duplicate_id_orphans_first_call (ws : workers) (q : Queue)
    (evs evs' : list event) (k : nat) (id : string) (f : fut) (mc : bool)
    (m : ModelRequestMessage) :
  0 < length ws →
  NoDup (req_id <$> dispatched evs) →
  let σ := run evs (__init__ ws q) in
  calls σ !! k = Some (Waiting id f mc) →
  futures σ !! f = Some FPending →
  (∀ cb, cb ∈ ready σ → target cb ≠ f) →
  req_id m = id →
  let σ' := run evs' (dispatch m σ) in
  _async_responses σ !! id = Some f
  ∧ _async_responses (dispatch m σ) !! id = Some (length (futures σ))
  ∧ f ≠ length (futures σ)
  ∧ orphaned k id f σ'
  ∧ (∀ r, calls σ' !! k ≠ Some (Done (Returned r)))
  ∧ (∀ r, futures σ' !! f ≠ Some (FResult r)).
Proof.
  intros Hn Hnd σ Hk Hp Hrdy Hid σ'.
  pose proof (inv_run ws q evs Hnd) as Hinv. fold σ in Hinv.
  destruct (inv_waiting _ _ Hinv _ _ _ _ Hk) as (_ & Hreg & Hlt).
  destruct (run_round_robin ws q evs Hn) as [Hks Hc]. fold σ in Hks, Hc.
  assert (0 < length (keys ws)) as Hn'.
  { unfold keys. by rewrite length_fmap. }
  destruct (cycle_next_at _ _ _ Hn' Hc) as (pid & c' & Hnext & Hpid & Hc').
  assert (pid ∈ keys (_workers σ)) as Hin.
  { rewrite Hks. by eapply list_elem_of_lookup_2. }
  destruct (workers_get_keys _ _ Hin) as [w Hw].
  assert (orphaned k id f (dispatch m σ)) as Horph.
  { rewrite (dispatch_ok _ _ _ _ _ Hnext Hw). unfold orphaned. cbn.
    rewrite length_app. split_and!; [lia| |done| |].
    - intros id' [[_ Heq]|[Hne Hold]]%lookup_insert_Some; [lia|].
      apply Hne. rewrite Hid. by eapply table_injective.
    - left. by apply lookup_app_l_Some.
    - left. exists mc. by apply lookup_app_l_Some. }
  pose proof (orphaned_run k id f evs' _ Horph) as Hfin. fold σ' in Hfin.
  split; [done|]. split.
  { rewrite (dispatch_ok _ _ _ _ _ Hnext Hw). cbn.
    by rewrite Hid, lookup_insert_eq. }
  split; [lia|]. split; [done|].
  destruct Hfin as (_ & _ & _ & Hfut & Hcall). split.
  - intros r Hr. destruct Hcall as [[mc' H]|[H|H]]; congruence.
  - intros r Hr. destruct Hfut as [H|H]; congruence.
Qed.

Lemma duplicate_id_orphans_first_call_witness :
  calls (run [EvDispatch (rq "a")] (__init__ ws3 q0)) !! 0
  = Some (Waiting "a" 0 false)
  ∧ _async_responses
      (dispatch (rq "a") (run [EvDispatch (rq "a")] (__init__ ws3 q0))) !! "a"
    = Some (length (futures (run [EvDispatch (rq "a")] (__init__ ws3 q0)))).
Proof.
  assert (0 < length ws3) as Hn by (cbn; lia).
  assert (NoDup (req_id <$> dispatched [EvDispatch (rq "a")])) as Hnd.
  { apply (bool_decide_unpack _). by vm_compute. }
  assert (calls (run [EvDispatch (rq "a")] (__init__ ws3 q0)) !! 0
          = Some (Waiting "a" 0 false)) as Hk by (by vm_compute).
  assert (futures (run [EvDispatch (rq "a")] (__init__ ws3 q0)) !! 0
          = Some FPending) as Hp by (by vm_compute).
  assert (∀ cb, cb ∈ ready (run [EvDispatch (rq "a")] (__init__ ws3 q0)) →
                target cb ≠ 0) as Hfree.
  { intros cb Hin. vm_compute in Hin. by apply elem_of_nil in Hin. }
  assert (req_id (rq "a") = "a") as Hid by reflexivity.
  split; [exact Hk|].
  destruct (duplicate_id_orphans_first_call ws3 q0 [EvDispatch (rq "a")] []
              0 "a" 0 false (rq "a") Hn Hnd Hk Hp Hfree Hid) as (_ & H & _).
  exact H.
Defined.




(** A cancelled call, resumed: the entry is gone and the call has ended
    with [CancelledError]. *)
Lemma wake_cancel_unregisters ds σ k id f mc :
  inv ds σ → calls σ !! k = Some (Waiting id f mc) →
  _async_responses (wake k (cancel k σ)) = delete id (_async_responses σ)
  ∧ calls (wake k (cancel k σ)) = <[k := Done Cancelled]> (calls σ)
  ∧ futures (wake k (cancel k σ)) !! f ≠ Some FPending.
Proof.
  intros Hinv Hk.
  destruct (inv_waiting _ _ Hinv _ _ _ _ Hk) as (_ & Hreg & Hlt).
  destruct (lookup_lt_is_Some_2 _ _ Hlt) as [s Hs].
  assert (k < length (calls σ)) as Hkl by (by eapply lookup_lt_Some).
  destruct (decide (s = FPending)) as [->|Hne].
  - rewrite (cancel_pending _ _ _ _ _ Hk Hs).
    set (σc := set_futures _ σ).
    assert (futures σc !! f = Some FCancelled) as Hs'.
    { unfold σc. cbn. by apply list_lookup_insert_eq. }
    assert (awaited mc FCancelled = Some Cancelled) as Haw by (by destruct mc).
    rewrite (wake_ok k σc id f mc FCancelled Cancelled f Hk Hs' Haw Hreg).
    cbn. split_and!; [done|done|].
    rewrite list_lookup_insert_eq by done. done.
  - rewrite (cancel_resolved _ _ _ _ _ _ Hk Hs Hne).
    set (σc := set_calls _ σ).
    assert (calls σc !! k = Some (Waiting id f true)) as Hk'.
    { unfold σc. cbn. by apply list_lookup_insert_eq. }
    rewrite (wake_ok k σc id f true s Cancelled f Hk' Hs eq_refl Hreg).
    cbn. rewrite list_insert_insert_eq, Hs. split_and!; [done|done|].
    congruence.
Qed.

(** A response that arrives after its caller was cancelled is not
    tolerated: in every state reachable with distinct ids, once the
    cancelled call has been resumed, [_process_response] for its id raises
    [KeyError]; a loop that reads such a response crashes and is
    restarted, and the call stays cancelled. *)
Theorem late_response_after_cancel (ws : workers) (q : Queue)
    (evs : list event) (k : nat) (id : string) (f : fut) (mc : bool)
    (r : ModelResponseMessage) :
  NoDup (req_id <$> dispatched evs) →
  let σ := run evs (__init__ ws q) in
  calls σ !! k = Some (Waiting id f mc) →
  resp_id r = id →
  let σ' := wake k (cancel k σ) in
  calls σ' !! k = Some (Done Cancelled)
  ∧ _process_response r σ' = (Raise (KeyError id), σ')
  ∧ (∀ t rest, supervised σ' t (Response r :: rest) →
       crashes (trace (_process_responses_step t σ'))
       = crashes (trace σ') ++ [KeyError id]
       ∧ calls (_process_responses_step t σ') !! k = Some (Done Cancelled)).
Proof.
  intros Hnd σ Hk Hid σ'.
  pose proof (inv_run ws q evs Hnd) as Hinv. fold σ in Hinv.
  destruct (wake_cancel_unregisters _ _ _ _ _ _ Hinv Hk) as (Ht & Hc & _).
  fold σ' in Ht, Hc.
  assert (k < length (calls σ)) as Hkl by (by eapply lookup_lt_Some).
  assert (calls σ' !! k = Some (Done Cancelled)) as Hdone.
  { rewrite Hc. by apply list_lookup_insert_eq. }
  assert (_async_responses σ' !! resp_id r = None) as Hnone.
  { rewrite Ht, Hid. apply lookup_delete_eq. }
  split; [done|]. split.
  - unfold _process_response. by rewrite Hnone, Hid.
  - intros t rest Hsup.
    assert (fault_of (_async_responses σ') (Response r)
            = Some (KeyError id)) as Hfault.
    { cbn. by rewrite Hnone, Hid. }
    rewrite (_process_responses_step_crashes _ _ _ _ _ Hsup Hfault).
    cbn. by rewrite crashes_app.
Qed.

Lemma late_response_after_cancel_witness :
  calls two_waiting !! 0 = Some (Waiting "a" 0 false)
  ∧ _process_response (rs "a") (wake 0 (cancel 0 two_waiting))
    = (Raise (KeyError "a"), wake 0 (cancel 0 two_waiting)).
Proof.
  assert (NoDup (req_id <$> dispatched
                   [EvStart; EvDispatch (rq "a"); EvDispatch (rq "b")]))
    as Hnd.
  { apply (bool_decide_unpack _). by vm_compute. }
  assert (calls (run [EvStart; EvDispatch (rq "a"); EvDispatch (rq "b")]
                   (__init__ ws3 q0)) !! 0
          = Some (Waiting "a" 0 false)) as Hk by (by vm_compute).
  assert (resp_id (rs "a") = "a") as Hid by reflexivity.
  split; [exact Hk|].
  destruct (late_response_after_cancel ws3 q0 _ 0 "a" 0 false (rs "a")
              Hnd Hk Hid) as (_ & H & _).
  exact H.
Defined.

(** The window [dispatch] leaves open by sending before registering: at
    the point where the request is in the worker's channel and the future
    not yet registered, [_process_response] for the request's id raises
    [KeyError] and changes nothing, so the response is consumed without
    effect.  [dispatch] then goes on as if nothing had happened: the call
    suspends on a pending future that no scheduled callback is aimed
    at. *)
Theorem response_before_registration_is_lost (ws : workers) (q : Queue)
    (evs : list event) (m : ModelRequestMessage)
    (r : ModelResponseMessage) :
  0 < length ws →
  NoDup (req_id <$> dispatched (evs ++ [EvDispatch m])) →
  resp_id r = req_id m →
  let σ := run evs (__init__ ws q) in
  let σs := (dispatch_submit m σ).2 in
  let f := length (futures σ) in
  (dispatch_submit m σ).1 = Ok ()
  ∧ _process_response r σs = (Raise (KeyError (req_id m)), σs)
  ∧ dispatch m σ
    = add_call (Waiting (req_id m) f false) (dispatch_register m σs)
  ∧ futures (dispatch m σ) !! f = Some FPending
  ∧ (∀ cb, cb ∈ ready (dispatch m σ) → target cb ≠ f).
Proof.
  intros Hn Hnd Hid σ σs f.
  rewrite dispatched_app, fmap_app in Hnd. cbn in Hnd.
  apply NoDup_app in Hnd as (Hnd & Hfresh & _).
  pose proof (inv_run ws q evs Hnd) as Hinv. fold σ in Hinv.
  destruct (run_round_robin ws q evs Hn) as [Hks Hc]. fold σ in Hks, Hc.
  assert (0 < length (keys ws)) as Hn'.
  { unfold keys. by rewrite length_fmap. }
  destruct (cycle_next_at _ _ _ Hn' Hc) as (pid & c' & Hnext & Hpid & Hc').
  assert (pid ∈ keys (_workers σ)) as Hin.
  { rewrite Hks. by eapply list_elem_of_lookup_2. }
  destruct (workers_get_keys _ _ Hin) as [w Hw].
  assert (_async_responses σ !! req_id m = None) as Hnone.
  { apply (fresh_id_unregistered _ _ _ Hinv). intros Hin'.
    apply (Hfresh _ Hin'). by left. }
  unfold σs. rewrite (dispatch_submit_ok _ _ _ _ _ Hnext Hw). cbn [fst snd].
  split; [done|]. split.
  { unfold _process_response. cbn. by rewrite Hid, Hnone. }
  split.
  { unfold dispatch. rewrite (dispatch_submit_ok _ _ _ _ _ Hnext Hw).
    unfold _wait_response_enter, dispatch_register. cbn.
    by rewrite lookup_insert_eq. }
  rewrite (dispatch_ok _ _ _ _ _ Hnext Hw). cbn. split.
  - rewrite lookup_app_r by done. by rewrite Nat.sub_diag.
  - intros cb Hcb Heq. pose proof (inv_ready_bound _ _ Hinv _ Hcb). lia.
Qed.

Lemma response_before_registration_is_lost_witness :
  0 < length ws3
  ∧ _process_response (rs "c") (dispatch_submit (rq "c") two_waiting).2
    = (Raise (KeyError "c"), (dispatch_submit (rq "c") two_waiting).2).
Proof.
  assert (0 < length ws3) as Hn by (cbn; lia).
  assert (NoDup (req_id <$> dispatched
                   ([EvStart; EvDispatch (rq "a"); EvDispatch (rq "b")]
                    ++ [EvDispatch (rq "c")]))) as Hnd.
  { apply (bool_decide_unpack _). by vm_compute. }
  assert (resp_id (rs "c") = req_id (rq "c")) as Hid by reflexivity.
  split; [exact Hn|].
  destruct (response_before_registration_is_lost ws3 q0 _ (rq "c") (rs "c")
              Hn Hnd Hid) as (_ & H & _).
  exact H.
Defined.

Lemma workers_get_update ws p pid f :
  workers_get (workers_update ws p f) pid
  = if decide (p = pid) then f <$> workers_get ws pid
    else workers_get ws pid.
Proof.
  induction ws as [|[k w] ws IH]; cbn [workers_get workers_update].
  { by destruct (decide (p = pid)). }
  destruct (decide (k = p)) as [->|Hkp]; cbn [workers_get].
  - destruct (decide (p = pid)) as [->|Hne]; [done|].
    done.
  - destruct (decide (k = pid)) as [->|Hkpid]; [|done].
    by destruct (decide (p = pid)); [congruence|].
Qed.

Lemma routed_snoc ks pid reqs m p :
  0 < length ks →
  ks !! (length reqs mod length ks) = Some p →
  routed ks pid (reqs ++ [m])
  = routed ks pid reqs ++ (if decide (p = pid) then [m] else []).
Proof.
  intros Hn Hp. unfold routed.
  rewrite length_app, Nat.add_1_r. cbn [length].
  rewrite (round_robin_S _ _ _ Hp).
  rewrite zip_with_app by (by rewrite round_robin_length).
  rewrite filter_app, fmap_app. f_equal.
  change (zip [p] [m]) with [(p, m)].
  rewrite filter_cons, filter_nil. cbn [fst].
  by destruct (decide (p = pid)).
Qed.

(** Requests reach a worker in the order in which they were dispatched:
    after sequential [dispatch] calls the channel of every worker holds
    what it held before, followed by the requests the round robin routed
    to it, in dispatch order; these are the requests whose turn fell on
    the worker, a subsequence of the dispatched ones. *)
Theorem worker_receives_in_order (ws : workers) (q : Queue)
    (reqs : list ModelRequestMessage) (pid : Z) (w0 : Worker) :
  workers_get ws pid = Some w0 →
  let σ := run (EvDispatch <$> reqs) (__init__ ws q) in
  workers_get (_workers σ) pid
  = Some {| _requests := _requests w0 ++ routed (keys ws) pid reqs |}
  ∧ routed (keys ws) pid reqs `sublist_of` reqs.
Proof.
  intros Hw0 σ.
  assert (0 < length ws) as Hn.
  { destruct ws; [done|cbn; lia]. }
  assert (0 < length (keys ws)) as Hn'.
  { unfold keys. by rewrite length_fmap. }
  split.
  - unfold σ. clear σ. induction reqs as [|m reqs IH] using rev_ind.
    + cbn. rewrite Hw0. unfold routed. cbn. rewrite app_nil_r.
      by destruct w0.
    + rewrite fmap_app, run_app. cbn [fmap list_fmap run foldl step].
      destruct (dispatch_all_round_robin ws q reqs Hn) as (Hk & Hc & _).
      set (σ := run (EvDispatch <$> reqs) (__init__ ws q)) in *.
      destruct (cycle_next_at _ _ _ Hn' Hc)
        as (p & c' & Hnext & Hp & Hc').
      assert (p ∈ keys (_workers σ)) as Hin.
      { rewrite Hk. by eapply list_elem_of_lookup_2. }
      destruct (workers_get_keys _ _ Hin) as [w Hw].
      rewrite (dispatch_ok _ _ _ _ _ Hnext Hw). cbn [_workers].
      rewrite workers_get_update, IH, (routed_snoc _ _ _ _ _ Hn' Hp).
      case_decide; cbn.
      * unfold send_request. cbn. by rewrite <- (assoc_L (++)).
      * by rewrite app_nil_r.
  - unfold routed.
    transitivity ((zip (round_robin (keys ws) (length reqs)) reqs).*2).
    + apply fmap_sublist, sublist_filter.
    + rewrite snd_zip; [done|]. by rewrite round_robin_length.
Qed.

Lemma worker_receives_in_order_witness :
  workers_get ws3 20 = Some idle
  ∧ workers_get (_workers (run (EvDispatch <$> reqs9) (__init__ ws3 q0))) 20
    = Some {| _requests := _requests idle ++ routed (keys ws3) 20 reqs9 |}.
Proof.
  split; [reflexivity|].
  destruct (worker_receives_in_order ws3 q0 reqs9 20 idle eq_refl) as [H _].
  exact H.
Defined.

(** The queue metric is taken before the request is sent: in every
    reachable state with at least one worker, [dispatch] observes the
    depth of the channel of the worker it has just chosen as it stands
    without the request, then sends; after the call that channel is one
    deeper than the value observed, and the two observations are the only
    things the monitors add. *)
Theorem queue_metric_before_send (ws : workers) (q : Queue)
    (evs : list event) (m : ModelRequestMessage) :
  0 < length ws →
  let σ := run evs (__init__ ws q) in
  ∃ pid w,
    keys ws !! (length (dispatched evs) mod length (keys ws)) = Some pid
    ∧ workers_get (_workers σ) pid = Some w
    ∧ trace (dispatch m σ)
      = trace σ ++ [ObserveQueue pid (qsize w); Send pid m; ObserveTasks;
                    Register (req_id m) (length (futures σ))]
    ∧ qsize <$> workers_get (_workers (dispatch m σ)) pid
      = Some (S (qsize w)).
Proof.
  intros Hn σ.
  destruct (run_round_robin ws q evs Hn) as [Hks Hc]. fold σ in Hks, Hc.
  assert (0 < length (keys ws)) as Hn'.
  { unfold keys. by rewrite length_fmap. }
  destruct (cycle_next_at _ _ _ Hn' Hc) as (pid & c' & Hnext & Hpid & Hc').
  assert (pid ∈ keys (_workers σ)) as Hin.
  { rewrite Hks. by eapply list_elem_of_lookup_2. }
  destruct (workers_get_keys _ _ Hin) as [w Hw].
  exists pid, w. rewrite (dispatch_ok _ _ _ _ _ Hnext Hw). cbn [trace _workers].
  split_and!; try done.
  rewrite workers_get_update, decide_True, Hw by done.
  cbn. unfold qsize, send_request. cbn. rewrite length_app. cbn.
  f_equal. lia.
Qed.

Lemma queue_metric_before_send_witness :
  0 < length ws3
  ∧ ∃ pid w,
      keys ws3 !! (length (dispatched
                     [EvStart; EvDispatch (rq "a"); EvDispatch (rq "b")])
                   mod length (keys ws3)) = Some pid
      ∧ workers_get (_workers (run [EvStart; EvDispatch (rq "a");
                                    EvDispatch (rq "b")] (__init__ ws3 q0)))
          pid = Some w
      ∧ trace (dispatch (rq "c")
                 (run [EvStart; EvDispatch (rq "a"); EvDispatch (rq "b")]
                    (__init__ ws3 q0)))
        = trace (run [EvStart; EvDispatch (rq "a"); EvDispatch (rq "b")]
                   (__init__ ws3 q0))
          ++ [ObserveQueue pid (qsize w); Send pid (rq "c"); ObserveTasks;
              Register (req_id (rq "c"))
                (length (futures (run [EvStart; EvDispatch (rq "a");
                                       EvDispatch (rq "b")]
                                    (__init__ ws3 q0))))]
      ∧ qsize <$> workers_get
                    (_workers (dispatch (rq "c")
                       (run [EvStart; EvDispatch (rq "a");
                             EvDispatch (rq "b")] (__init__ ws3 q0)))) pid
        = Some (S (qsize w)).
Proof.
  assert (0 < length ws3) as Hn by (cbn; lia).
  split; [exact Hn|].
  exact (queue_metric_before_send ws3 q0
           [EvStart; EvDispatch (rq "a"); EvDispatch (rq "b")] (rq "c") Hn).
Defined.

End DispatchEdges.
